(** * voicegen: the text normalizer, the sentence chunker and the request
      handlers of [app.py], embedded in Rocq.

    Python strings are sequences of Unicode code points: a character is a
    code point ([N]) and a text is a list of characters.  The regular
    expressions of the program are values of a small syntax, run by a
    backtracking matcher that enumerates matches in the priority order of
    Python's [re] module; [re.sub] and [re.split] are defined on top of the
    left-to-right scan for successive non-overlapping matches. *)

From Stdlib Require Import String Ascii.
From Stdlib Require Import List NArith Arith Bool Lia.
Import ListNotations.

Local Open Scope N_scope.

(** ** Characters and texts *)

Definition char := N.
Definition text := list char.

(** An ASCII literal as a text. *)
Definition str (s : string) : text := map N_of_ascii (list_ascii_of_string s).

Definition charset := char -> bool.

Definition one (c : char) : charset := fun x => x =? c.

Definition any_of (cs : text) : charset := fun x => existsb (N.eqb x) cs.

Definition c_space : char := 32.
Definition c_newline : char := 10.
Definition c_dot : char := 46.
Definition c_bang : char := 33.
Definition c_question : char := 63.
Definition c_star : char := 42.
Definition c_backtick : char := 96.
Definition c_hyphen : char := 45.
Definition c_bullet : char := 8226.

(** [str.isspace], which is also the class [\s] of a [str] pattern:
    the code points CPython lists as whitespace. *)
Definition is_space : charset := fun c =>
  ((9 <=? c) && (c <=? 13)) || ((28 <=? c) && (c <=? 32))
  || (c =? 133) || (c =? 160) || (c =? 5760)
  || ((8192 <=? c) && (c <=? 8202))
  || (c =? 8232) || (c =? 8233) || (c =? 8239) || (c =? 8287) || (c =? 12288).

(** [.] without DOTALL: anything but a newline. *)
Definition is_dot_any : charset := fun c => negb (c =? c_newline).

(** [[A-Z]] *)
Definition is_upper : charset := fun c => (65 <=? c) && (c <=? 90).

(** [[.!?]] *)
Definition is_sentence_end : charset := any_of [c_dot; c_bang; c_question].

(** [[-*•]] *)
Definition is_bullet : charset := any_of [c_hyphen; c_star; c_bullet].

(** [[^\S.]]: not (a non-space or a dot). *)
Definition is_space_not_dot : charset := fun c =>
  negb (negb (is_space c) || (c =? c_dot)).

(** The symbols of the class [[#@$%^&*_+=\[\]{}|\\<>~]], in that order. *)
Definition blocklist : text :=
  [35; 64; 36; 37; 94; 38; 42; 95; 43; 61; 91; 93; 123; 125; 124; 92; 60; 62; 126].

Definition is_blocklisted : charset := any_of blocklist.

(** ** Regular expressions

    The fragment of [re] syntax the program uses.  Every quantifier of the
    program applies to a single-character class, which is what [Rep] holds. *)

Inductive regex : Type :=
| Chr (p : charset)
| Rep (p : charset) (lo : nat) (hi : option nat) (greedy : bool)
| Seq (r1 r2 : regex)
| Alt (r1 r2 : regex)
| Grp (r : regex)
| Bol
| Behind (ps : list charset).

(** A position of the matcher: the characters before it (nearest first), the
    characters from it on, and the groups closed so far. *)
Record mstate : Type := MState {
  before : text;
  rest : text;
  caps : list text
}.

Definition step_char (st : mstate) : mstate :=
  match rest st with
  | c :: t => MState (c :: before st) t (caps st)
  | [] => st
  end.

Fixpoint advance (k : nat) (st : mstate) : mstate :=
  match k with
  | O => st
  | S k' => advance k' (step_char st)
  end.

(** Length of the longest prefix of [s] inside [p], not beyond [hi]. *)
Fixpoint run_length (p : charset) (hi : option nat) (s : text) : nat :=
  match s with
  | [] => O
  | c :: t =>
    match hi with
    | Some O => O
    | Some (S h) => if p c then S (run_length p (Some h) t) else O
    | None => if p c then S (run_length p None t) else O
    end
  end.

(** The repetition counts a quantifier tries, in the order it tries them. *)
Definition rep_counts (lo n : nat) (greedy : bool) : list nat :=
  let up := seq lo (S n - lo) in
  if greedy then rev up else up.

Fixpoint behind_ok (ps : list charset) (b : text) : bool :=
  match ps with
  | [] => true
  | p :: ps' =>
    match b with
    | c :: b' => p c && behind_ok ps' b'
    | [] => false
    end
  end.

(** Closing a group records what it matched.  Groups are numbered in the
    order they close, which is their number in a pattern whose groups do not
    nest, as in all patterns of the program. *)
Definition close_group (st st' : mstate) : mstate :=
  MState (before st') (rest st')
         (caps st' ++ [firstn (length (rest st) - length (rest st')) (rest st)]).

(** All the ways [r] matches at [st], first the one a backtracking matcher
    finds first. [Bol] is [^] under MULTILINE. *)
Fixpoint run (r : regex) (st : mstate) : list mstate :=
  match r with
  | Chr p =>
    match rest st with
    | c :: _ => if p c then [step_char st] else []
    | [] => []
    end
  | Rep p lo hi greedy =>
    map (fun k => advance k st)
        (rep_counts lo (run_length p hi (rest st)) greedy)
  | Seq r1 r2 => flat_map (run r2) (run r1 st)
  | Alt r1 r2 => run r1 st ++ run r2 st
  | Grp r1 => map (close_group st) (run r1 st)
  | Bol =>
    match before st with
    | [] => [st]
    | c :: _ => if c =? c_newline then [st] else []
    end
  | Behind ps => if behind_ok (rev ps) (before st) then [st] else []
  end.

(** The least number of characters a match of [r] takes. *)
Fixpoint min_len (r : regex) : nat :=
  match r with
  | Chr _ => 1
  | Rep _ lo _ _ => lo
  | Seq r1 r2 => min_len r1 + min_len r2
  | Alt r1 r2 => Nat.min (min_len r1) (min_len r2)
  | Grp r1 => min_len r1
  | Bol => 0
  | Behind _ => 0
  end.

(** The match at one position: how many characters it takes, and its groups. *)
Definition match_here (r : regex) (b s : text) : option (nat * list text) :=
  match run r (MState b s []) with
  | st' :: _ => Some ((length s - length (rest st'))%nat, caps st')
  | [] => None
  end.

(** The scan for successive non-overlapping matches, leftmost first: a text
    becomes kept characters and hits.  No pattern of the program matches the
    empty string, so an empty match counts as no match. *)
Inductive seg : Type :=
| Keep (c : char)
| Hit (w : text) (groups : list text).

Fixpoint scan_go (r : regex) (skip : nat) (b s : text) : list seg :=
  match s with
  | [] => []
  | c :: t =>
    match skip with
    | S k => scan_go r k (c :: b) t
    | O =>
      match match_here r b s with
      | Some (S k, gs) => Hit (firstn (S k) s) gs :: scan_go r k (c :: b) t
      | _ => Keep c :: scan_go r O (c :: b) t
      end
    end
  end.

Definition scan (r : regex) (s : text) : list seg := scan_go r O [] s.

(** Replacement templates: literal characters and group references. *)
Inductive ritem : Type :=
| RLit (c : char)
| RRef (n : nat).

Definition expand (repl : list ritem) (gs : list text) : text :=
  flat_map (fun it => match it with
                      | RLit c => [c]
                      | RRef n => nth (pred n) gs []
                      end) repl.

Definition seg_out (repl : list ritem) (x : seg) : text :=
  match x with
  | Keep c => [c]
  | Hit _ gs => expand repl gs
  end.

(** [re.sub(r, repl, s)] *)
Definition re_sub (r : regex) (repl : list ritem) (s : text) : text :=
  flat_map (seg_out repl) (scan r s).

Definition lit (s : text) : list ritem := map RLit s.

(** [re.split(r, s)] for a pattern without groups. *)
Fixpoint pieces (l : list seg) : list text :=
  match l with
  | [] => [[]]
  | Keep c :: l' =>
    match pieces l' with
    | p :: ps => (c :: p) :: ps
    | [] => [[c]]
    end
  | Hit _ _ :: l' => [] :: pieces l'
  end.

Definition re_split (r : regex) (s : text) : list text := pieces (scan r s).

(** [str.strip()] *)
Fixpoint lstrip (s : text) : text :=
  match s with
  | [] => []
  | c :: t => if is_space c then lstrip t else s
  end.

Fixpoint rstrip (s : text) : text :=
  match s with
  | [] => []
  | c :: t =>
    match rstrip t with
    | [] => if is_space c then [] else [c]
    | r => c :: r
    end
  end.

Definition strip (s : text) : text := rstrip (lstrip s).

Definition text_eqb (a b : text) : bool :=
  if list_eq_dec N.eq_dec a b then true else false.

(** ** The normalizer: [clean_text_for_tts] *)

Infix "@@" := Seq (at level 60, right associativity).


Section Normalizer.

(** [\d] in a [str] pattern is the Unicode category Nd.  Its ASCII part is
    [0-9]; the table of the other decimal digits belongs to the Unicode
    database, not to this program, and is a parameter. *)
Variable nd_nonascii : charset.

Definition is_decimal : charset := fun c =>
  if c <? 128 then (48 <=? c) && (c <=? 57) else nd_nonascii c.

(** [\*\*(.+?)\*\*] *)
Definition re_bold : regex :=
  Chr (one c_star) @@ Chr (one c_star) @@ Grp (Rep is_dot_any 1 None false)
  @@ Chr (one c_star) @@ Chr (one c_star).

(** [\*(.+?)\*] *)
Definition re_italic : regex :=
  Chr (one c_star) @@ Grp (Rep is_dot_any 1 None false) @@ Chr (one c_star).

(** [`(.+?)`] *)
Definition re_code : regex :=
  Chr (one c_backtick) @@ Grp (Rep is_dot_any 1 None false) @@ Chr (one c_backtick).

(** [^\s*[-*•]\s+] with MULTILINE *)
Definition re_bullet : regex :=
  Bol @@ Rep is_space 0 None true @@ Chr is_bullet @@ Rep is_space 1 None true.

(** [^\s*\d+\.\s+] with MULTILINE *)
Definition re_ordinal : regex :=
  Bol @@ Rep is_space 0 None true @@ Rep is_decimal 1 None true
  @@ Chr (one c_dot) @@ Rep is_space 1 None true.

(** [[^\S.]+] *)
Definition re_spaces : regex := Rep is_space_not_dot 1 None true.

(** [([.!?])([A-Z])] *)
Definition re_glued : regex := Grp (Chr is_sentence_end) @@ Grp (Chr is_upper).

(** [\.{9,}] *)
Definition re_dots9 : regex := Rep (one c_dot) 9 None true.

(** [\.{3,8}] *)
Definition re_dots3 : regex := Rep (one c_dot) 3 (Some 8%nat) true.

(** [[!]{2,}] *)
Definition re_bangs : regex := Rep (any_of [c_bang]) 2 None true.

(** [[?]{2,}] *)
Definition re_questions : regex := Rep (any_of [c_question]) 2 None true.

(** [[#@$%^&*_+=\[\]{}|\\<>~]] *)
Definition re_symbols : regex := Chr is_blocklisted.

(** [\s+\.] *)
Definition re_space_dot : regex := Rep is_space 1 None true @@ Chr (one c_dot).

(** [\s{2,}] *)
Definition re_spaces2 : regex := Rep is_space 2 None true.

Definition group1 : list ritem := [RRef 1].

Definition clean_text_for_tts (t : text) : text :=
  let t := re_sub re_bold group1 t in
  let t := re_sub re_italic group1 t in
  let t := re_sub re_code group1 t in
  let t := re_sub re_bullet [] t in
  let t := re_sub re_ordinal [] t in
  let t := re_sub re_spaces (lit [c_space]) t in
  let t := re_sub re_glued [RRef 1; RLit c_space; RRef 2] t in
  let t := re_sub re_dots9 (lit (repeat c_dot 14)) t in
  let t := re_sub re_dots3 (lit (repeat c_dot 3)) t in
  let t := re_sub re_bangs (lit [c_bang]) t in
  let t := re_sub re_questions (lit [c_question]) t in
  let t := re_sub re_symbols [] t in
  let t := re_sub re_space_dot (lit [c_dot]) t in
  let t := re_sub re_spaces2 (lit [c_space]) t in
  strip t.

End Normalizer.

(** The rules of the pipeline in order, each a pattern and its replacement. *)
Definition rules (nd_nonascii : charset) : list (regex * list ritem) :=
  [ (re_bold, group1); (re_italic, group1); (re_code, group1);
    (re_bullet, []); (re_ordinal nd_nonascii, []);
    (re_spaces, lit [c_space]);
    (re_glued, [RRef 1; RLit c_space; RRef 2]);
    (re_dots9, lit (repeat c_dot 14)); (re_dots3, lit (repeat c_dot 3));
    (re_bangs, lit [c_bang]); (re_questions, lit [c_question]);
    (re_symbols, []);
    (re_space_dot, lit [c_dot]); (re_spaces2, lit [c_space]) ].

(** ** The chunker of [generate_voice_chunked] *)

(** [(?<=[.!?])\s+|(?<=\.\.\.)\s+] *)
Definition re_boundary : regex :=
  Alt (Behind [is_sentence_end] @@ Rep is_space 1 None true)
      (Behind [one c_dot; one c_dot; one c_dot] @@ Rep is_space 1 None true).

Definition sentences_of (t : text) : list text := re_split re_boundary t.

Definition nonempty (t : text) : bool :=
  match t with
  | [] => false
  | _ :: _ => true
  end.

(** The [for] loop over the sentences and the flush after it; [chunks] and
    [current_chunk] are the two variables the loop updates. *)
Fixpoint chunk_loop (sentences : list text) (chunks : list text)
         (current_chunk : text) : list text :=
  match sentences with
  | [] =>
    if nonempty current_chunk then chunks ++ [strip current_chunk] else chunks
  | sentence :: more =>
    if (length current_chunk + length sentence <? 400)%nat
    then chunk_loop more chunks (current_chunk ++ sentence ++ [c_space])
    else chunk_loop more
           (if nonempty current_chunk then chunks ++ [strip current_chunk]
            else chunks)
           (sentence ++ [c_space])
  end.

Definition chunk_text (t : text) : list text :=
  chunk_loop (sentences_of t) [] [].

(** ** Request handlers *)

(** The module-level configuration read from the environment: [os.getenv]
    gives a string or [None]. *)
Record config : Type := Config {
  CLOUDFLARE_ACCOUNT_ID : option text;
  CLOUDFLARE_API_TOKEN : option text;
  GEMINI_API_KEY : option text
}.

(** Truth value of a string-or-[None]. *)
Definition truthy (v : option text) : bool :=
  match v with
  | Some t => nonempty t
  | None => false
  end.

(** The JSON body of a voice request: an object whose fields, when present,
    are strings. *)
Record voice_request : Type := VoiceRequest {
  req_text : option text;
  req_language : option text
}.

Record chat_request : Type := ChatRequest {
  req_message : option text;
  req_history : list (text * text)
}.

Inductive response : Type :=
| Json_error (error : text) (status : nat)
| Wav_file (audio : list N)
| Json_chunks (chunks : list text) (total : nat)
| Json_chat (reply : text) (success : bool).

(** What the conversation with the chat model ends in: the [text] of the
    answer, or an exception. *)
Inductive model_outcome : Type :=
| Model_text (raw : text)
| Model_raised (e : text).

Definition get_default (v : option text) (d : text) : text :=
  match v with
  | Some t => t
  | None => d
  end.

Definition lang_map : list (text * text) :=
  [ (str "EN", str "en"); (str "ES", str "es"); (str "FR", str "fr");
    (str "ZH", str "zh"); (str "JP", str "ja"); (str "KR", str "ko") ].

Fixpoint dict_get (d : list (text * text)) (k : text) (default : text) : text :=
  match d with
  | [] => default
  | (k', v) :: d' => if text_eqb k k' then v else dict_get d' k default
  end.

Section Handlers.

(** The request to Cloudflare Workers AI and the handling of its outcome
    (the [try] block of [generate_voice]), as a function of the payload's
    [prompt] and [lang]. *)
Variable cloudflare_tts : text -> text -> response.

(** Building the prompt, calling the chat model and reading its answer, as a
    function of the message and the history. *)
Variable ask_model : text -> list (text * text) -> model_outcome.

Variable nd_nonascii : charset.

Variable cfg : config.

Definition credentials_missing : bool :=
  negb (truthy (CLOUDFLARE_ACCOUNT_ID cfg)) || negb (truthy (CLOUDFLARE_API_TOKEN cfg)).

Definition generate_voice (req : voice_request) : response :=
  if credentials_missing
  then Json_error
         (str "Cloudflare credentials not configured. Please check your .env file.")
         500
  else
    let text := get_default (req_text req) [] in
    let language := get_default (req_language req) (str "EN") in
    if negb (nonempty text)
    then Json_error (str "Text is required") 400
    else cloudflare_tts text (dict_get lang_map language (str "en")).

Definition generate_voice_chunked (req : voice_request) : response :=
  if credentials_missing
  then Json_error (str "Cloudflare credentials not configured.") 500
  else
    let text := get_default (req_text req) [] in
    if negb (nonempty text)
    then Json_error (str "Text is required") 400
    else
      let chunks := chunk_text text in
      if (length chunks <=? 1)%nat
      then generate_voice req
      else Json_chunks chunks (length chunks).

Definition chat_with_gemini (req : chat_request) : response :=
  if negb (truthy (GEMINI_API_KEY cfg))
  then Json_error
         (str "Gemini API key not configured. Please check your .env file.")
         500
  else
    let message := get_default (req_message req) [] in
    if negb (nonempty message)
    then Json_error (str "Message is required") 400
    else
      match ask_model message (req_history req) with
      | Model_text ai_response =>
        Json_chat (clean_text_for_tts nd_nonascii ai_response) true
      | Model_raised e => Json_error (str "Gemini API error: " ++ e) 500
      end.

End Handlers.

(** ** Notions the properties are stated with *)

(** [sep.join(l)] *)
Fixpoint join (sep : text) (l : list text) : text :=
  match l with
  | [] => []
  | [x] => x
  | x :: l' => x ++ sep ++ join sep l'
  end.

(** Every whitespace run replaced by one space. *)
Fixpoint collapse_ws (s : text) : text :=
  match s with
  | [] => []
  | c :: t =>
    if is_space c then
      match t with
      | [] => [c_space]
      | d :: _ => if is_space d then collapse_ws t else c_space :: collapse_ws t
      end
    else c :: collapse_ws t
  end.

Definition ws_normal (s : text) : text := strip (collapse_ws s).

(** Two texts are whitespace-equivalent when they are equal after collapsing
    every whitespace run to one space and trimming. *)
Definition ws_equiv (a b : text) : Prop := ws_normal a = ws_normal b.

(** The maximal runs of non-whitespace characters of a text, in order. *)
Fixpoint words (s : text) : list text :=
  match s with
  | [] => []
  | c :: t =>
    if is_space c then words t
    else
      match t with
      | [] => [[c]]
      | d :: _ =>
        if is_space d then [c] :: words t
        else
          match words t with
          | w :: ws => (c :: w) :: ws
          | [] => [[c]]
          end
      end
  end.

(** The buffer after appending the sentences [g], each with its trailing
    space, and the chunk flushed from it. *)
Definition sentence_run (g : list text) : text :=
  flat_map (fun s => s ++ [c_space]) g.

Definition chunk_of (g : list text) : text := strip (sentence_run g).

(** A chunk within the budget of 400 characters, or one sentence that alone
    exceeds it, emitted whole (trimmed). *)
Definition within_budget (g : list text) : Prop :=
  (length (chunk_of g) <= 400)%nat \/
  exists s, g = [s] /\ (400 < length s)%nat /\ chunk_of g = strip s.

(** What the loop knows of its buffer: empty, or at most 400 characters, or
    a single sentence. *)
Definition pending_ok (g : list text) : Prop :=
  g = [] \/ (length (sentence_run g) <= 400)%nat \/ exists s, g = [s].

(** A space when [t] starts with whitespace. *)
Definition lead_space (t : text) : text :=
  match t with
  | c :: _ => if is_space c then [c_space] else []
  | [] => []
  end.

(** The original text of a scanned text: hits stand for what they matched. *)
Definition seg_src (x : seg) : text :=
  match x with
  | Keep c => [c]
  | Hit w _ => w
  end.

(** [s] is the pieces [ps] with a non-empty whitespace run between each two. *)
Inductive interleaved : text -> list text -> Prop :=
| il_last p : interleaved p [p]
| il_more p w s ps :
    w <> [] -> forallb is_space w = true -> interleaved s ps ->
    interleaved (p ++ w ++ s) (p :: ps).

(** Length of the run of [c] at the start of [t], and of the longest run of
    [c] in [t]. *)
Fixpoint run_at (c : char) (t : text) : nat :=
  match t with
  | x :: t' => if x =? c then S (run_at c t') else O
  | [] => O
  end.

Fixpoint longest_run (c : char) (t : text) : nat :=
  match t with
  | [] => O
  | _ :: t' => Nat.max (run_at c t) (longest_run c t')
  end.

(** Punctuation runs within the caps of the normalizer: at most one [!], one
    [?], fourteen dots. *)
Definition punctuation_normalized (t : text) : bool :=
  (longest_run c_bang t <=? 1)%nat && (longest_run c_question t <=? 1)%nat
  && (longest_run c_dot t <=? 14)%nat.

Definition status_of (r : response) : nat :=
  match r with
  | Json_error _ st => st
  | _ => 200%nat
  end.

(** A text the chunker of the endpoint splits in two although its
    normalization is short. *)
Definition hashes_then_a : text := repeat 35 399 ++ str ". a".

(** Concrete surroundings for examples: no decimal digit beyond ASCII, an
    upstream that answers with empty audio, configured credentials. *)
Definition nd_none : charset := fun _ => false.

Definition tts_silence : text -> text -> response := fun _ _ => Wav_file [].

Definition cfg_ok : config :=
  Config (Some (str "acct")) (Some (str "token")) (Some (str "key")).

Definition cfg_unset : config := Config None None None.

(** ** Further notions: the chunker *)

(** Consecutive groups filled greedily: a group ends only where the next
    sentence, added to the buffer of the group, would reach the budget. *)
Inductive greedy_groups : list (list text) -> Prop :=
| gg_nil : greedy_groups []
| gg_one g : greedy_groups [g]
| gg_cons a s b rest :
    (400 <= length (sentence_run a) + length s)%nat ->
    greedy_groups ((s :: b) :: rest) ->
    greedy_groups (a :: (s :: b) :: rest).

(** Whether the character before the position is one of [.!?]. *)
Definition prev_end (b : text) : bool :=
  match b with
  | c :: _ => is_sentence_end c
  | [] => false
  end.

(** No whitespace character of [s] comes directly after one of [.!?];
    [after_end] tells whether [s] itself comes directly after one. *)
Fixpoint boundary_free (after_end : bool) (s : text) : bool :=
  match s with
  | [] => true
  | d :: t => negb (after_end && is_space d) && boundary_free (is_sentence_end d) t
  end.

Definition starts_with_space (s : text) : bool :=
  match s with
  | c :: _ => is_space c
  | [] => false
  end.

(** The last character of [p] is one of [.!?]; for an empty [p] the answer
    is [e]. *)
Definition ends_sentence (e : bool) (p : text) : bool :=
  match rev p with
  | c :: _ => is_sentence_end c
  | [] => e
  end.

(** [s], read after a character that is one of [.!?] or not ([e]), is cut
    into the pieces [ps]: each cut removes a non-empty whitespace run that
    follows one of [.!?] and that is followed by no further whitespace. *)
Inductive cut_at_boundaries : bool -> text -> list text -> Prop :=
| cut_last e p : cut_at_boundaries e p [p]
| cut_more e p w s ps :
    ends_sentence e p = true ->
    w <> [] -> forallb is_space w = true ->
    starts_with_space s = false ->
    cut_at_boundaries false s ps ->
    cut_at_boundaries e (p ++ w ++ s) (p :: ps).

(** ** Further notions: the normalizer *)

(** A rewriting step whose output has no character that is neither in its
    input nor a space. *)
Definition adds_only_space (f : text -> text) : Prop :=
  forall s c, In c (f s) -> In c s \/ c = c_space.

(** No two whitespace characters next to each other. *)
Fixpoint single_spaced (s : text) : bool :=
  match s with
  | [] => true
  | c :: t => negb (is_space c && starts_with_space t) && single_spaced t
  end.

(** Not a whitespace character other than the space. *)
Definition space_or_visible (c : char) : bool := negb (is_space c) || (c =? c_space).

(** ** Further handlers *)

(** [a and b] on two values that are a string or [None]. *)
Definition py_and (a b : option text) : option text := if truthy a then b else a.

(** The body of the answer of [health_check]. *)
Record health : Type := Health {
  health_status : text;
  configured : bool;
  gemini_configured : bool
}.

Definition health_check (cfg : config) : health :=
  let is_configured := truthy (py_and (CLOUDFLARE_ACCOUNT_ID cfg) (CLOUDFLARE_API_TOKEN cfg)) in
  let gemini_configured := truthy (GEMINI_API_KEY cfg) in
  Health (str "healthy") is_configured gemini_configured.

(** The two tables of the answer of [get_voices]. *)
Definition voices_languages : list (text * text) :=
  [ (str "EN", str "English"); (str "ES", str "Spanish"); (str "FR", str "French");
    (str "ZH", str "Chinese"); (str "JP", str "Japanese"); (str "KR", str "Korean") ].

Definition voices_speakers : list (text * list text) :=
  [ (str "EN", [str "EN-Default"; str "EN-US"; str "EN-BR"; str "EN-INDIA"; str "EN-AU"]);
    (str "ES", [str "ES"; str "ES-MX"]);
    (str "FR", [str "FR"]);
    (str "ZH", [str "ZH"]);
    (str "JP", [str "JP"]);
    (str "KR", [str "KR"]) ].

(** [k in s] on strings. *)
Fixpoint is_prefix (k s : text) : bool :=
  match k with
  | [] => true
  | c :: k' =>
    match s with
    | d :: s' => (c =? d) && is_prefix k' s'
    | [] => false
    end
  end.

Fixpoint is_infix (k s : text) : bool :=
  is_prefix k s ||
  match s with
  | _ :: s' => is_infix k s'
  | [] => false
  end.

(** [l[-n:]] *)
Definition last_n {A : Type} (n : nat) (l : list A) : list A :=
  skipn (length l - n) l.

Definition teaching_keywords : list text :=
  [ str "list of words"; str "give me words"; str "vocabulary words";
    str "practice words"; str "word list"; str "some words"; str "quiz me";
    str "test me" ].

Definition teaching_hint : text :=
  c_newline ::
  str "[TEACHING MODE: User wants vocabulary practice. Use LONG pauses (..........) between each word!]".

Section Prompt.

(** [str.lower], whose case tables belong to the Unicode database. *)
Variable lower : text -> text.

(** The answer of the chat model to a prompt: creating the model with the
    system instruction, [generate_content] and reading [response.text]. *)
Variable generate : text -> model_outcome.

(** The prompt [chat_with_gemini] builds from the message and the history,
    whose entries are pairs of a [role] and a [content]. *)
Definition build_prompt (message : text) (conversation_history : list (text * text)) : text :=
  let teaching_mode_hint :=
    if existsb (fun keyword => is_infix keyword (lower message)) teaching_keywords
    then teaching_hint else [] in
  match conversation_history with
  | _ :: _ =>
    let context :=
      join [c_newline]
           (map (fun msg =>
                   (if text_eqb (fst msg) (str "user") then str "User" else str "Assistant")
                   ++ str ": " ++ snd msg)
                (last_n 6 conversation_history)) in
    str "Previous conversation:" ++ [c_newline] ++ context ++ [c_newline; c_newline]
    ++ str "User: " ++ message ++ teaching_mode_hint
  | [] => str "User: " ++ message ++ teaching_mode_hint
  end.

Definition ask_with_prompt (message : text) (conversation_history : list (text * text))
  : model_outcome :=
  generate (build_prompt message conversation_history).

End Prompt.

(** ASCII lower-casing, for examples. *)
Definition lower_ascii (t : text) : text :=
  map (fun c => if is_upper c then c + 32 else c) t.

Definition starts_with_dot (s : text) : bool :=
  match s with
  | c :: _ => c =? c_dot
  | [] => false
  end.

(** No whitespace character directly before a dot. *)
Fixpoint no_space_before_dot (s : text) : bool :=
  match s with
  | [] => true
  | c :: t => negb (is_space c && starts_with_dot t) && no_space_before_dot t
  end.

(** Character classes of which every match of [r] holds a character. *)
Fixpoint needs (r : regex) : list charset :=
  match r with
  | Chr p => [p]
  | Rep p lo _ _ =>
    match lo with
    | O => []
    | S _ => [p]
    end
  | Seq r1 r2 => needs r1 ++ needs r2
  | Grp r1 => needs r1
  | Alt _ _ => []
  | Bol => []
  | Behind _ => []
  end.

(** A character the rules have nothing to say about: no whitespace, no
    blocklisted symbol, no backtick, none of [.!?]. *)
Definition plain_char (c : char) : bool :=
  negb (is_space c) && negb (is_blocklisted c) && negb (c =? c_backtick)
  && negb (is_sentence_end c).

(** A bullet marker and a whitespace character at the start. *)
Definition bullet_start (t : text) : bool :=
  match t with
  | c :: t' => is_bullet c && starts_with_space t'
  | [] => false
  end.

(** Plain text: plain characters and single spaces, none at either end, and
    no bullet marker in front. *)
Definition plain_text (t : text) : bool :=
  forallb (fun c => plain_char c || (c =? c_space)) t
  && single_spaced t && text_eqb (strip t) t && negb (bullet_start t).

(** No two asterisks next to each other. *)
Fixpoint star_pair_free (s : text) : bool :=
  match s with
  | [] => true
  | c :: t =>
    negb ((c =? c_star) && match t with d :: _ => d =? c_star | [] => false end)
    && star_pair_free t
  end.

(** [[0-9]] *)
Definition ascii_digit : charset := fun c => (48 <=? c) && (c <=? 57).

(** ** Notions for texts the normalizer leaves alone *)

Definition starts_with_upper (s : text) : bool :=
  match s with
  | c :: _ => is_upper c
  | [] => false
  end.

(** None of [.!?] directly before a capital [A-Z]. *)
Fixpoint glued_free (s : text) : bool :=
  match s with
  | [] => true
  | c :: t => negb (is_sentence_end c && starts_with_upper t) && glued_free t
  end.

(** Decimal digits, a dot and a whitespace character at the start. *)
Definition ordinal_start (nd_nonascii : charset) (t : text) : bool :=
  let n := run_length (is_decimal nd_nonascii) None t in
  (1 <=? n)%nat &&
  match skipn n t with
  | c :: after => (c =? c_dot) && starts_with_space after
  | [] => false
  end.

(** A text in which no rule finds anything left to do, as far as the
    normalizer does not already guarantee it of its output: no backtick, no
    list marker in front, no sentence glued to a capital, no run of more than
    three dots, no run of [!] or of [?]. *)
Definition settled (nd_nonascii : charset) (x : text) : bool :=
  negb (existsb (one c_backtick) x)
  && negb (bullet_start x) && negb (ordinal_start nd_nonascii x)
  && glued_free x
  && (longest_run c_dot x <=? 3)%nat
  && (longest_run c_bang x <=? 1)%nat && (longest_run c_question x <=? 1)%nat.


(** * Properties *)

Arguments is_space : simpl never.

(** ** Trimming *)

Lemma space_is_space : is_space c_space = true.
Proof. reflexivity. Qed.

Lemma rstrip_cons (c : char) (t : text) :
  rstrip (c :: t) =
  match rstrip t with
  | [] => if is_space c then [] else [c]
  | r => c :: r
  end.
Proof. reflexivity. Qed.

Lemma rstrip_app_space (s : text) : rstrip (s ++ [c_space]) = rstrip s.
Proof.
  induction s as [|c t IH]; [reflexivity|].
  rewrite <- app_comm_cons, !rstrip_cons, IH. reflexivity.
Qed.

Lemma lstrip_app_space (s : text) :
  lstrip (s ++ [c_space]) =
  match lstrip s with
  | [] => []
  | r => r ++ [c_space]
  end.
Proof.
  induction s as [|c t IH]; [reflexivity|].
  simpl. destruct (is_space c); [exact IH|reflexivity].
Qed.

Lemma strip_app_space (s : text) : strip (s ++ [c_space]) = strip s.
Proof.
  unfold strip. rewrite lstrip_app_space.
  destruct (lstrip s) as [|c r]; [reflexivity|].
  apply rstrip_app_space.
Qed.

Lemma lstrip_length (s : text) : (length (lstrip s) <= length s)%nat.
Proof.
  induction s as [|c t IH]; simpl; [lia|].
  destruct (is_space c); simpl; lia.
Qed.

Lemma rstrip_length (s : text) : (length (rstrip s) <= length s)%nat.
Proof.
  induction s as [|c t IH]; [simpl; lia|].
  rewrite rstrip_cons. destruct (rstrip t); [destruct (is_space c)|]; simpl in *; lia.
Qed.

Lemma strip_length (s : text) : (length (strip s) <= length s)%nat.
Proof.
  unfold strip. pose proof (rstrip_length (lstrip s)). pose proof (lstrip_length s). lia.
Qed.

Lemma lstrip_incl (s : text) (c : char) : In c (lstrip s) -> In c s.
Proof.
  induction s as [|d t IH]; simpl; [tauto|].
  destruct (is_space d); simpl; tauto.
Qed.

Lemma rstrip_incl (s : text) (c : char) : In c (rstrip s) -> In c s.
Proof.
  induction s as [|d t IH]; [simpl; tauto|].
  rewrite rstrip_cons. destruct (rstrip t) as [|e r].
  - destruct (is_space d); simpl; tauto.
  - intros [H|H]; [left; exact H|right; apply IH; exact H].
Qed.

Lemma strip_incl (s : text) (c : char) : In c (strip s) -> In c s.
Proof. intro H. apply lstrip_incl, rstrip_incl. exact H. Qed.

Lemma rstrip_idem (s : text) : rstrip (rstrip s) = rstrip s.
Proof.
  induction s as [|c t IH]; [reflexivity|].
  rewrite rstrip_cons. destruct (rstrip t) as [|e r] eqn:E.
  - destruct (is_space c) eqn:Ec; [reflexivity|]. simpl. rewrite Ec. reflexivity.
  - rewrite rstrip_cons, IH. reflexivity.
Qed.

Lemma rstrip_head (s : text) (d : char) (r : text) :
  rstrip s = d :: r -> exists t, s = d :: t.
Proof.
  destruct s as [|c t]; [discriminate|].
  rewrite rstrip_cons. destruct (rstrip t).
  - destruct (is_space c); [discriminate|]. intros [= <- _]. eauto.
  - intros [= <- _]. eauto.
Qed.

Lemma lstrip_head (s : text) (d : char) (r : text) :
  lstrip s = d :: r -> is_space d = false.
Proof.
  induction s as [|c t IH]; simpl; [discriminate|].
  destruct (is_space c) eqn:Ec; [exact IH|]. intros [= <- _]. exact Ec.
Qed.

Lemma lstrip_fixed (s : text) :
  match s with
  | [] => True
  | c :: _ => is_space c = false
  end -> lstrip s = s.
Proof. destruct s as [|c t]; simpl; [reflexivity|]. intros ->. reflexivity. Qed.

Lemma strip_idem (s : text) : strip (strip s) = strip s.
Proof.
  unfold strip. rewrite (lstrip_fixed (rstrip (lstrip s))); [apply rstrip_idem|].
  destruct (rstrip (lstrip s)) as [|d r] eqn:E; [exact I|].
  destruct (rstrip_head _ _ _ E) as [t Ht].
  exact (lstrip_head _ _ _ Ht).
Qed.

Lemma lstrip_split (s : text) :
  exists l, s = l ++ lstrip s /\ forallb is_space l = true.
Proof.
  induction s as [|c t [l [E Hl]]]; [exists []; auto|].
  cbn [lstrip]. destruct (is_space c) eqn:Hc.
  - exists (c :: l). split; [simpl; f_equal; exact E|simpl; rewrite Hc; exact Hl].
  - exists []. auto.
Qed.

Lemma rstrip_split (s : text) :
  exists r, s = rstrip s ++ r /\ forallb is_space r = true.
Proof.
  induction s as [|c t [r [E Hr]]]; [exists []; auto|].
  rewrite rstrip_cons. destruct (rstrip t) as [|d u] eqn:Eu.
  - simpl in E. subst t. destruct (is_space c) eqn:Hc.
    + exists (c :: r). split; [reflexivity|simpl; rewrite Hc; exact Hr].
    + exists r. auto.
  - exists r. split; [simpl; f_equal; exact E|exact Hr].
Qed.

(** Trimming removes whitespace at the two ends and nothing else. *)
Lemma strip_split (s : text) :
  exists l r, s = l ++ strip s ++ r
              /\ forallb is_space l = true /\ forallb is_space r = true.
Proof.
  destruct (lstrip_split s) as [l [El Hl]].
  destruct (rstrip_split (lstrip s)) as [r [Er Hr]].
  exists l, r. unfold strip. rewrite <- Er. auto.
Qed.

(** ** The scan, [re.sub] and [re.split] *)

Lemma scan_go_src (r : regex) (s : text) :
  forall k b, flat_map seg_src (scan_go r k b s) = skipn k s.
Proof.
  induction s as [|c t IH]; intros k b.
  - destruct k; reflexivity.
  - destruct k as [|k]; simpl.
    + destruct (match_here r b (c :: t)) as [[[|n] gs]|]; simpl.
      * rewrite IH. reflexivity.
      * rewrite IH. f_equal. apply firstn_skipn.
      * rewrite IH. reflexivity.
    + apply IH.
Qed.

Lemma scan_src (r : regex) (s : text) : flat_map seg_src (scan r s) = s.
Proof. unfold scan. rewrite scan_go_src. reflexivity. Qed.

Lemma text_eqb_eq (a b : text) : text_eqb a b = true -> a = b.
Proof. unfold text_eqb. destruct (list_eq_dec N.eq_dec a b); [auto|discriminate]. Qed.

Lemma keep_in_scan (r : regex) (c : char) (s : text) :
  forall k b, In (Keep c) (scan_go r k b s) -> In c s.
Proof.
  induction s as [|d t IH]; intros k b; [destruct k; simpl; tauto|].
  destruct k as [|k]; simpl.
  - destruct (match_here r b (d :: t)) as [[[|n] gs]|]; simpl;
      intros [H|H]; try discriminate; try (injection H as ->); eauto.
  - eauto.
Qed.

Lemma expand_lit (l : text) (gs : list text) : expand (lit l) gs = l.
Proof.
  unfold expand, lit. induction l as [|c l IH]; simpl; [reflexivity|].
  f_equal. exact IH.
Qed.

Lemma sub_lit_incl (r : regex) (l : text) (s : text) (c : char) :
  In c (re_sub r (lit l) s) -> In c s \/ In c l.
Proof.
  unfold re_sub. intro H. apply in_flat_map in H. destruct H as [x [Hx Hc]].
  destruct x as [d|w gs]; simpl in Hc.
  - destruct Hc as [->|[]]. left. exact (keep_in_scan _ _ _ _ _ Hx).
  - rewrite expand_lit in Hc. right. exact Hc.
Qed.

Lemma sub_delete_incl (r : regex) (s : text) (c : char) :
  In c (re_sub r [] s) -> In c s.
Proof. intro H. destruct (sub_lit_incl r [] s c H) as [H'|[]]. exact H'. Qed.

Lemma match_here_chr (p : charset) (b : text) (c : char) (t : text) :
  match_here (Chr p) b (c :: t) = if p c then Some (1%nat, []) else None.
Proof.
  unfold match_here. cbn [run rest]. destruct (p c); [|reflexivity].
  cbn [rest caps step_char length].
  replace (S (length t) - length t)%nat with 1%nat by lia.
  reflexivity.
Qed.

Lemma scan_chr_keeps (p : charset) (c : char) (s : text) :
  forall k b, In (Keep c) (scan_go (Chr p) k b s) -> p c = false.
Proof.
  induction s as [|d t IH]; intros k b; [destruct k; simpl; tauto|].
  destruct k as [|k]; [|simpl; eauto].
  cbn [scan_go]. rewrite match_here_chr. destruct (p d) eqn:E; simpl.
  - intros [H|H]; [discriminate|eauto].
  - intros [H|H]; [injection H as <-; exact E|eauto].
Qed.

Lemma symbols_removed (s : text) (c : char) :
  In c (re_sub re_symbols [] s) -> is_blocklisted c = false.
Proof.
  unfold re_sub. intro H. apply in_flat_map in H. destruct H as [x [Hx Hc]].
  destruct x as [d|w gs]; simpl in Hc; [|contradiction].
  destruct Hc as [->|[]]. exact (scan_chr_keeps _ _ _ _ _ Hx).
Qed.

(** ** The normalizer *)

Lemma clean_as_rules (nd : charset) (t : text) :
  clean_text_for_tts nd t =
  strip (fold_left (fun t rule => re_sub (fst rule) (snd rule) t) (rules nd) t).
Proof. reflexivity. Qed.

Lemma clean_trimmed (nd : charset) (t : text) :
  strip (clean_text_for_tts nd t) = clean_text_for_tts nd t.
Proof. unfold clean_text_for_tts. apply strip_idem. Qed.

Lemma blocklist_not_dot_space (c : char) :
  In c [c_dot] \/ In c [c_space] -> is_blocklisted c = false.
Proof. intros [[<-|[]]|[<-|[]]]; reflexivity. Qed.

Lemma clean_no_symbol (nd : charset) (t : text) (c : char) :
  In c (clean_text_for_tts nd t) -> is_blocklisted c = false.
Proof.
  unfold clean_text_for_tts. intro H.
  apply strip_incl in H.
  apply sub_lit_incl in H. destruct H as [H|H];
    [|apply blocklist_not_dot_space; right; exact H].
  apply sub_lit_incl in H. destruct H as [H|H];
    [|apply blocklist_not_dot_space; left; exact H].
  exact (symbols_removed _ _ H).
Qed.

(** ** Words and whitespace equivalence *)

Lemma words_cons_space (c : char) (t : text) :
  is_space c = true -> words (c :: t) = words t.
Proof. intro H. simpl. rewrite H. reflexivity. Qed.

Lemma words_lead (w b : text) :
  forallb is_space w = true -> words (w ++ b) = words b.
Proof.
  induction w as [|c w IH]; cbn [app]; [reflexivity|].
  intro H. apply andb_prop in H. destruct H as [Hc Hw].
  rewrite (words_cons_space _ _ Hc). exact (IH Hw).
Qed.

Lemma words_all_space (w : text) : forallb is_space w = true -> words w = [].
Proof. intro H. rewrite <- (app_nil_r w). apply (words_lead w [] H). Qed.

Lemma words_cons_nonspace (c : char) (t : text) :
  is_space c = false -> exists w ws, words (c :: t) = (c :: w) :: ws.
Proof.
  intro H. simpl. rewrite H. destruct t as [|d t']; [eauto|].
  destruct (is_space d); [eauto|]. destruct (words (d :: t')); eauto.
Qed.

Lemma words_cons_glue (c d : char) (t : text) :
  is_space c = false -> is_space d = false ->
  words (c :: d :: t) =
  match words (d :: t) with
  | w :: ws => (c :: w) :: ws
  | [] => [[c]]
  end.
Proof. intros Hc Hd. cbn [words]. rewrite Hc, Hd. reflexivity. Qed.

Lemma words_cons_break (c d : char) (t : text) :
  is_space c = false -> is_space d = true ->
  words (c :: d :: t) = [c] :: words (d :: t).
Proof. intros Hc Hd. cbn [words]. rewrite Hc, Hd. reflexivity. Qed.

Lemma words_app_sep (a w b : text) :
  w <> [] -> forallb is_space w = true ->
  words (a ++ w ++ b) = words a ++ words b.
Proof.
  intros Hne Hw. induction a as [|c a IH].
  - simpl. apply words_lead. exact Hw.
  - cbn [app]. destruct (is_space c) eqn:Hc.
    + rewrite !(words_cons_space _ _ Hc). exact IH.
    + destruct a as [|d a'].
      * cbn [app]. destruct w as [|x w']; [contradiction|].
        simpl in Hw. apply andb_prop in Hw. destruct Hw as [Hx Hw'].
        cbn [app]. rewrite (words_cons_break _ _ _ Hc Hx).
        rewrite (words_cons_space _ _ Hx), (words_lead _ _ Hw').
        cbn [words]. rewrite Hc. reflexivity.
      * cbn [app] in *. destruct (is_space d) eqn:Hd.
        -- rewrite !(words_cons_break _ _ _ Hc Hd), IH. reflexivity.
        -- rewrite !(words_cons_glue _ _ _ Hc Hd), IH.
           destruct (words_cons_nonspace d a' Hd) as [w0 [ws0 E]].
           rewrite E. reflexivity.
Qed.

Lemma words_app_space (a b : text) :
  words (a ++ c_space :: b) = words a ++ words b.
Proof. apply (words_app_sep a [c_space] b); [discriminate|reflexivity]. Qed.

Lemma words_lstrip (s : text) : words (lstrip s) = words s.
Proof.
  induction s as [|c t IH]; [reflexivity|].
  simpl lstrip. destruct (is_space c) eqn:Hc; [|reflexivity].
  rewrite (words_cons_space _ _ Hc). exact IH.
Qed.

Lemma rstrip_nil_space (s : text) : rstrip s = [] -> forallb is_space s = true.
Proof.
  induction s as [|c t IH]; [reflexivity|].
  rewrite rstrip_cons. destruct (rstrip t); [|discriminate].
  destruct (is_space c) eqn:Hc; [|discriminate].
  intros _. simpl. rewrite Hc. apply IH. reflexivity.
Qed.

Lemma words_rstrip (s : text) : words (rstrip s) = words s.
Proof.
  induction s as [|c t IH]; [reflexivity|].
  rewrite rstrip_cons. destruct (rstrip t) as [|d r] eqn:E.
  - pose proof (rstrip_nil_space _ E) as Ht.
    change (c :: t) with ([c] ++ t).
    destruct (is_space c) eqn:Hc.
    + symmetry. apply words_all_space. simpl. rewrite Hc. exact Ht.
    + destruct t as [|x t']; [simpl; rewrite Hc; reflexivity|].
      simpl in Ht. apply andb_prop in Ht. destruct Ht as [Hx Ht'].
      cbn [app]. rewrite (words_cons_break _ _ _ Hc Hx).
      rewrite (words_cons_space _ _ Hx), (words_all_space _ Ht').
      simpl. rewrite Hc. reflexivity.
  - destruct (rstrip_head _ _ _ E) as [t' ->].
    destruct (is_space c) eqn:Hc.
    + rewrite !(words_cons_space _ _ Hc). exact IH.
    + destruct (is_space d) eqn:Hd.
      * rewrite !(words_cons_break _ _ _ Hc Hd), IH. reflexivity.
      * rewrite !(words_cons_glue _ _ _ Hc Hd), IH. reflexivity.
Qed.

Lemma words_strip (s : text) : words (strip s) = words s.
Proof. unfold strip. rewrite words_rstrip. apply words_lstrip. Qed.

Lemma words_join (l : list text) :
  words (join [c_space] l) = flat_map words l.
Proof.
  induction l as [|x l IH]; [reflexivity|].
  destruct l as [|y l'].
  - simpl. rewrite app_nil_r. reflexivity.
  - change (join [c_space] (x :: y :: l'))
      with (x ++ c_space :: join [c_space] (y :: l')).
    rewrite words_app_space, IH. reflexivity.
Qed.

Lemma words_sentences_flat (g : list text) :
  words (flat_map (fun s => s ++ [c_space]) g) = flat_map words g.
Proof.
  induction g as [|s g IH]; [reflexivity|].
  simpl. rewrite <- app_assoc. cbn [app]. rewrite words_app_space, IH. reflexivity.
Qed.

Lemma words_chunk_of (g : list text) : words (chunk_of g) = flat_map words g.
Proof. unfold chunk_of, sentence_run. rewrite words_strip. apply words_sentences_flat. Qed.

Lemma words_interleaved (s : text) (ps : list text) :
  interleaved s ps -> words s = flat_map words ps.
Proof.
  induction 1 as [p|p w s ps Hne Hw _ IH].
  - simpl. rewrite app_nil_r. reflexivity.
  - simpl. rewrite (words_app_sep _ _ _ Hne Hw), IH. reflexivity.
Qed.

Lemma join_cons_cons (sep : text) (c : char) (w : text) (ws : list text) :
  join sep ((c :: w) :: ws) = c :: join sep (w :: ws).
Proof. destruct ws; reflexivity. Qed.

Lemma lstrip_collapse (s : text) : lstrip (collapse_ws s) = collapse_ws (lstrip s).
Proof.
  induction s as [|c t IH]; [reflexivity|].
  cbn [collapse_ws lstrip]. destruct (is_space c) eqn:Hc.
  - destruct t as [|d t']; [reflexivity|].
    destruct (is_space d) eqn:Hd; [exact IH|].
    cbn [lstrip]. rewrite space_is_space. exact IH.
  - cbn [lstrip collapse_ws]. rewrite Hc. reflexivity.
Qed.

Lemma rstrip_collapse (t : text) :
  rstrip (collapse_ws t) =
  match words t with
  | [] => []
  | _ :: _ => lead_space t ++ join [c_space] (words t)
  end.
Proof.
  induction t as [|c t IH]; [reflexivity|].
  cbn [collapse_ws lead_space]. destruct (is_space c) eqn:Hc.
  - rewrite (words_cons_space _ _ Hc). destruct t as [|d t'].
    + cbn [words]. rewrite rstrip_cons. cbn [rstrip]. rewrite space_is_space. reflexivity.
    + destruct (is_space d) eqn:Hd.
      * rewrite IH. cbn [lead_space]. rewrite Hd. reflexivity.
      * rewrite rstrip_cons, IH.
        destruct (words_cons_nonspace d t' Hd) as [w [ws E]]. rewrite E.
        cbn [lead_space]. rewrite Hd, join_cons_cons. reflexivity.
  - rewrite rstrip_cons, IH. destruct t as [|d t'].
    + cbn [words]. rewrite Hc. reflexivity.
    + destruct (is_space d) eqn:Hd.
      * rewrite (words_cons_break _ _ _ Hc Hd).
        destruct (words (d :: t')) as [|w0 ws0]; [rewrite Hc; reflexivity|].
        cbn [lead_space]. rewrite Hd. reflexivity.
      * rewrite (words_cons_glue _ _ _ Hc Hd).
        destruct (words_cons_nonspace d t' Hd) as [w [ws E]]. rewrite E.
        cbn [lead_space]. rewrite Hd, !join_cons_cons. reflexivity.
Qed.

Lemma ws_normal_words (s : text) : ws_normal s = join [c_space] (words s).
Proof.
  unfold ws_normal, strip. rewrite lstrip_collapse, rstrip_collapse, words_lstrip.
  destruct (words s) as [|w ws] eqn:E; [reflexivity|].
  replace (lead_space (lstrip s)) with (@nil char); [reflexivity|].
  destruct (lstrip s) as [|d r] eqn:El; [reflexivity|].
  cbn [lead_space]. rewrite (lstrip_head _ _ _ El). reflexivity.
Qed.

Lemma same_words_ws_equiv (a b : text) : words a = words b -> ws_equiv a b.
Proof. intro H. unfold ws_equiv. rewrite !ws_normal_words, H. reflexivity. Qed.

(** ** The matcher on quantifiers, and the sentence boundary *)

Lemma rep_counts_in (lo n k : nat) (greedy : bool) :
  In k (rep_counts lo n greedy) -> (lo <= k <= n)%nat.
Proof.
  unfold rep_counts. intro H.
  assert (In k (seq lo (S n - lo))) as H'
    by (destruct greedy; [apply in_rev|]; exact H).
  apply in_seq in H'. lia.
Qed.

Lemma run_length_prefix (p : charset) (s : text) :
  forall hi k, (k <= run_length p hi s)%nat ->
  forallb p (firstn k s) = true /\ (k <= length s)%nat.
Proof.
  induction s as [|c t IH]; intros hi k Hk.
  - destruct hi as [[|h]|]; simpl in Hk; assert (k = O) by lia; subst; simpl; auto.
  - destruct k as [|k]; [simpl; split; [reflexivity|lia]|].
    assert (exists hi', p c = true /\ (k <= run_length p hi' t)%nat) as [hi' [Hc Hk']].
    { destruct hi as [[|h]|]; simpl in Hk; try lia;
        destruct (p c); try lia; eexists; split; try reflexivity;
        apply le_S_n; exact Hk. }
    destruct (IH hi' k Hk') as [Hall Hlen].
    simpl. rewrite Hc, Hall. split; [reflexivity|lia].
Qed.

Lemma rest_step_char (st : mstate) : rest (step_char st) = skipn 1 (rest st).
Proof. destruct st as [b [|c t] gs]; reflexivity. Qed.

Lemma rest_advance (k : nat) :
  forall st, rest (advance k st) = skipn k (rest st).
Proof.
  induction k as [|k IH]; intro st; [reflexivity|].
  cbn [advance]. rewrite IH, rest_step_char.
  destruct (rest st) as [|c t]; [destruct k; reflexivity|reflexivity].
Qed.

Lemma run_boundary_in (st st' : mstate) :
  In st' (run re_boundary st) ->
  exists k, (1 <= k <= run_length is_space None (rest st))%nat /\ st' = advance k st.
Proof.
  unfold re_boundary. cbn [run]. intro H.
  assert (In st' (map (fun k => advance k st)
                      (rep_counts 1 (run_length is_space None (rest st)) true))) as H'.
  { apply in_app_or in H. destruct H as [H|H];
      match type of H with
      | In _ (flat_map _ (if ?b then _ else _)) => destruct b
      end; simpl in H; try contradiction;
      rewrite app_nil_r in H; exact H. }
  apply in_map_iff in H'. destruct H' as [k [<- Hk]].
  exists k. split; [exact (rep_counts_in _ _ _ _ Hk)|reflexivity].
Qed.

Lemma match_boundary (b s : text) (n : nat) (gs : list text) :
  match_here re_boundary b s = Some (n, gs) ->
  forallb is_space (firstn n s) = true.
Proof.
  unfold match_here. destruct (run re_boundary (MState b s [])) as [|st' l] eqn:E;
    [discriminate|].
  intros [= <- _].
  destruct (run_boundary_in (MState b s []) st') as [k [Hk ->]];
    [rewrite E; left; reflexivity|].
  cbn [rest] in Hk. destruct (run_length_prefix is_space s None k) as [Hall Hlen]; [lia|].
  rewrite rest_advance. cbn [rest]. rewrite length_skipn.
  replace (length s - (length s - k))%nat with k by lia. exact Hall.
Qed.

Lemma scan_boundary_hits (w : text) (gs : list text) (s : text) :
  forall k b, In (Hit w gs) (scan_go re_boundary k b s) ->
  w <> [] /\ forallb is_space w = true.
Proof.
  induction s as [|c t IH]; intros k b; [destruct k; simpl; tauto|].
  destruct k as [|k]; [|simpl; eauto].
  cbn [scan_go]. destruct (match_here re_boundary b (c :: t)) as [[[|n] gs']|] eqn:E.
  - intros [H|H]; [discriminate|eauto].
  - intros [H|H]; [|eauto]. injection H as <- <-.
    split; [discriminate|exact (match_boundary _ _ _ _ E)].
  - intros [H|H]; [discriminate|eauto].
Qed.

Lemma pieces_interleaved (l : list seg) :
  (forall w gs, In (Hit w gs) l -> w <> [] /\ forallb is_space w = true) ->
  interleaved (flat_map seg_src l) (pieces l).
Proof.
  induction l as [|x l IH]; intro H.
  - apply il_last.
  - assert (interleaved (flat_map seg_src l) (pieces l)) as IH'
      by (apply IH; intros w gs Hin; apply (H w gs); right; exact Hin).
    destruct x as [c|w gs]; cbn [flat_map seg_src pieces].
    + inversion IH' as [p Hp Hps|p w s ps Hne Hw Hs Hp Hps]; cbn [app].
      * apply il_last.
      * apply (il_more (c :: p) w s ps Hne Hw Hs).
    + destruct (H w gs) as [Hne Hw]; [left; reflexivity|].
      apply (il_more [] w _ _ Hne Hw IH').
Qed.

Lemma sentences_interleaved (t : text) : interleaved t (sentences_of t).
Proof.
  unfold sentences_of, re_split.
  rewrite <- (scan_src re_boundary t) at 1.
  apply pieces_interleaved. intros w gs H.
  exact (scan_boundary_hits _ _ _ _ _ H).
Qed.

Lemma words_sentences (t : text) : flat_map words (sentences_of t) = words t.
Proof. symmetry. apply words_interleaved, sentences_interleaved. Qed.

(** ** The chunking loop *)

Lemma flat_snoc (g : list text) (s : text) :
  sentence_run (g ++ [s]) = sentence_run g ++ s ++ [c_space].
Proof. unfold sentence_run. rewrite flat_map_app. simpl. rewrite app_nil_r. reflexivity. Qed.

Lemma flat_single (s : text) : sentence_run [s] = s ++ [c_space].
Proof. unfold sentence_run. simpl. apply app_nil_r. Qed.

Lemma nonempty_flat (g : list text) :
  nonempty (sentence_run g) = match g with [] => false | _ :: _ => true end.
Proof.
  destruct g as [|s g]; [reflexivity|].
  unfold sentence_run. simpl. destruct s; reflexivity.
Qed.

Lemma chunk_of_single (s : text) : chunk_of [s] = strip s.
Proof. unfold chunk_of. rewrite flat_single. apply strip_app_space. Qed.

Lemma pending_within_budget (g : list text) :
  pending_ok g -> g <> [] -> within_budget g.
Proof.
  unfold within_budget. intros [H|[H|[s ->]]] Hne; [contradiction| |].
  - left. unfold chunk_of.
    pose proof (strip_length (sentence_run g)). lia.
  - rewrite chunk_of_single. pose proof (strip_length s).
    destruct (le_lt_dec (length s) 400) as [Hle|Hgt].
    + left. lia.
    + right. exists s. auto.
Qed.

Lemma chunk_loop_groups (ss : list text) :
  forall g chunks, pending_ok g ->
  exists gs,
    chunk_loop ss chunks (sentence_run g) = chunks ++ map chunk_of gs /\
    concat gs = g ++ ss /\
    Forall (fun g' => g' <> []) gs /\
    Forall within_budget gs.
Proof.
  induction ss as [|s more IH]; intros g chunks Hg.
  - cbn [chunk_loop]. rewrite nonempty_flat. destruct g as [|s0 g'] eqn:E.
    + exists []. simpl. rewrite app_nil_r. auto.
    + exists [s0 :: g']. rewrite <- E in *. simpl. rewrite !app_nil_r.
      repeat split; auto.
      * constructor; [subst; discriminate|constructor].
      * constructor; [apply pending_within_budget; subst; [auto|discriminate]|constructor].
  - cbn [chunk_loop].
    destruct (length (sentence_run g) + length s <? 400)%nat eqn:Hfit.
    + apply Nat.ltb_lt in Hfit.
      destruct (IH (g ++ [s]) chunks) as [gs [H1 [H2 [H3 H4]]]].
      { right. left. rewrite flat_snoc, !length_app. simpl. lia. }
      exists gs. rewrite <- flat_snoc, H1, H2, <- app_assoc. auto.
    + destruct (IH [s] (if nonempty (sentence_run g)
                        then chunks ++ [strip (sentence_run g)] else chunks))
        as [gs [H1 [H2 [H3 H4]]]].
      { right. right. exists s. reflexivity. }
      rewrite flat_single in H1. rewrite H1, nonempty_flat.
      destruct g as [|s0 g'] eqn:E.
      * exists gs. auto.
      * rewrite <- E in *. exists (g :: gs). simpl. rewrite H2, <- app_assoc.
        repeat split; auto.
        -- constructor; [subst; discriminate|exact H3].
        -- constructor; [apply pending_within_budget; subst; [auto|discriminate]|exact H4].
Qed.

Lemma chunk_text_groups (t : text) :
  exists gs,
    chunk_text t = map chunk_of gs /\
    concat gs = sentences_of t /\
    Forall (fun g => g <> []) gs /\
    Forall within_budget gs.
Proof.
  destruct (chunk_loop_groups (sentences_of t) [] []) as [gs H];
    [left; reflexivity|].
  exists gs. exact H.
Qed.

Lemma flat_map_words_concat (gs : list (list text)) :
  flat_map words (map chunk_of gs) = flat_map words (concat gs).
Proof.
  induction gs as [|g gs IH]; [reflexivity|].
  simpl. rewrite flat_map_app, words_chunk_of, IH. reflexivity.
Qed.

(** ** No pattern of the program matches the empty string *)

Lemma run_consumes (r : regex) :
  forall st st', In st' (run r st) ->
  (length (rest st') + min_len r <= length (rest st))%nat.
Proof.
  induction r as [p|p lo hi greedy|r1 IH1 r2 IH2|r1 IH1 r2 IH2|r IH| |ps];
    intros st st' H; cbn [run min_len] in *.
  - destruct st as [b [|c t] gs]; cbn [rest] in *; [contradiction|].
    destruct (p c); [|contradiction]. destruct H as [<-|[]]. simpl. lia.
  - apply in_map_iff in H. destruct H as [k [<- Hk]].
    apply rep_counts_in in Hk.
    destruct (run_length_prefix p (rest st) hi k) as [_ Hlen]; [lia|].
    rewrite rest_advance, length_skipn. lia.
  - apply in_flat_map in H. destruct H as [mid [Hm H]].
    pose proof (IH1 _ _ Hm). pose proof (IH2 _ _ H). lia.
  - apply in_app_or in H. destruct H as [H|H]; [pose proof (IH1 _ _ H)|pose proof (IH2 _ _ H)]; lia.
  - apply in_map_iff in H. destruct H as [mid [<- Hm]].
    pose proof (IH _ _ Hm). cbn [close_group rest]. lia.
  - destruct (before st) as [|c b]; [|destruct (c =? c_newline)];
      simpl in H; try contradiction; destruct H as [<-|[]]; lia.
  - destruct (behind_ok (rev ps) (before st)); simpl in H; [|contradiction].
    destruct H as [<-|[]]. lia.
Qed.

Lemma patterns_nonempty (nd : charset) :
  forallb (fun rule => (1 <=? min_len (fst rule))%nat) (rules nd) = true
  /\ (1 <=? min_len re_boundary)%nat = true.
Proof. split; reflexivity. Qed.

Lemma match_here_takes (r : regex) (b s : text) (n : nat) (gs : list text) :
  match_here r b s = Some (n, gs) -> (min_len r <= n <= length s)%nat.
Proof.
  unfold match_here. destruct (run r (MState b s [])) as [|st' l] eqn:E; [discriminate|].
  intros [= <- _].
  pose proof (run_consumes r (MState b s []) st') as H.
  rewrite E in H. specialize (H (or_introl eq_refl)). cbn [rest] in H. lia.
Qed.

(** * Specified properties *)

(** ** Dot runs *)

(** What the two dot rules do to a text that is one run of [n] dots: runs of
    1 or 2 stay, runs of 3 to 8 become 3 dots, and runs of 9 to 20 end as 6
    dots, because the 14 dots written by [\.{9,}] are matched again by
    [\.{3,8}] as 8 dots and 6 dots. *)
Lemma dot_runs_alone (nd : charset) :
  forallb (fun n => text_eqb (clean_text_for_tts nd (repeat c_dot n)) (repeat c_dot n))
          (seq 1 2) = true
  /\ forallb (fun n => text_eqb (clean_text_for_tts nd (repeat c_dot n)) (repeat c_dot 3))
             (seq 3 6) = true
  /\ forallb (fun n => text_eqb (clean_text_for_tts nd (repeat c_dot n)) (repeat c_dot 6))
             (seq 9 12) = true.
Proof. repeat split; vm_compute; reflexivity. Qed.

(** C1: the normalizer applied to ["**Hi** there..........go"] returns
    ["Hi there......go"], with 6 dots where the comments of the code and the
    specification promise the 14 dots of an extra long pause. *)
Theorem long_pause_ends_as_six_dots (nd : charset) :
  clean_text_for_tts nd (str "**Hi** there..........go") = str "Hi there......go".
Proof. vm_compute. reflexivity. Qed.

(** ** The chunker *)

(** C2: the sentences of the input fall into consecutive non-empty groups,
    and the chunks are, in order, the trimmed buffers of these groups: the
    whole sentences of a group, each followed by a space, less whitespace at
    the two ends.  Every chunk has at most 400 characters, unless it is a
    single sentence of more than 400 characters, emitted whole (trimmed). *)
Theorem chunks_within_budget (t : text) :
  exists groups,
    chunk_text t = map chunk_of groups /\
    concat groups = sentences_of t /\
    Forall (fun g => g <> []) groups /\
    Forall (fun g =>
              (length (chunk_of g) <= 400)%nat \/
              exists s, g = [s] /\ (400 < length s)%nat /\ chunk_of g = strip s)
           groups /\
    Forall (fun g =>
              exists l r, sentence_run g = l ++ chunk_of g ++ r
                          /\ forallb is_space l = true /\ forallb is_space r = true)
           groups.
Proof.
  destruct (chunk_text_groups t) as [gs [H1 [H2 [H3 H4]]]].
  exists gs. repeat split; auto.
  apply Forall_forall. intros g _. apply strip_split.
Qed.

(** C3: the chunks joined by single spaces and trimmed are
    whitespace-equivalent to the trimmed input, and the chunks are made of the
    sentences of the input in their order. *)
Theorem chunks_rejoin_input (t : text) :
  ws_equiv (strip (join [c_space] (chunk_text t))) (strip t)
  /\ exists groups,
       chunk_text t = map chunk_of groups /\ concat groups = sentences_of t.
Proof.
  destruct (chunk_text_groups t) as [gs [H1 [H2 _]]].
  split; [|exists gs; auto].
  apply same_words_ws_equiv.
  rewrite !words_strip, words_join, H1, flat_map_words_concat, H2.
  apply words_sentences.
Qed.

(** ** The normalizer *)

(** C4: the output of the normalizer contains no blocklisted symbol. *)
Theorem clean_output_has_no_blocklisted_symbol (nd : charset) (t : text) :
  existsb is_blocklisted (clean_text_for_tts nd t) = false.
Proof.
  destruct (existsb is_blocklisted (clean_text_for_tts nd t)) eqn:E; [|reflexivity].
  apply existsb_exists in E. destruct E as [c [Hin Hc]].
  rewrite (clean_no_symbol nd t c Hin) in Hc. discriminate.
Qed.

(** ** The request handlers *)

(** C7, as stated, fails: the endpoint chunks the text as received, without
    normalizing it.  For 399 [#] followed by [". a"] the normalized text is
    [". a"], one chunk, yet the endpoint answers with two chunks and not as
    [generate_voice] does. *)
Lemma chunked_ignores_normalization :
  let req := VoiceRequest (Some hashes_then_a) None in
  (length (chunk_text (clean_text_for_tts nd_none hashes_then_a)) <= 1)%nat
  /\ generate_voice tts_silence cfg_ok req = Wav_file []
  /\ generate_voice_chunked tts_silence cfg_ok req
     = Json_chunks [repeat 35 399 ++ [c_dot]; str "a"] 2
  /\ generate_voice_chunked tts_silence cfg_ok req <> generate_voice tts_silence cfg_ok req.
Proof.
  cbv zeta. split; [vm_compute; lia|].
  split; [vm_compute; reflexivity|].
  split; [vm_compute; reflexivity|vm_compute; discriminate].
Qed.

(** C7, amended: with credentials configured and a non-empty text, the
    endpoint answers as [generate_voice] on the same request when chunking the
    text as received gives at most one chunk, and otherwise with the chunks
    and their number. *)
Theorem chunked_routes_on_raw_chunks
        (tts : text -> text -> response) (cfg : config) (req : voice_request) (t : text) :
  credentials_missing cfg = false ->
  req_text req = Some t ->
  t <> [] ->
  generate_voice_chunked tts cfg req =
  if (length (chunk_text t) <=? 1)%nat
  then generate_voice tts cfg req
  else Json_chunks (chunk_text t) (length (chunk_text t)).
Proof.
  intros Hc Ht Hne. unfold generate_voice_chunked. rewrite Hc, Ht. cbn [get_default].
  destruct t as [|c t']; [contradiction|]. reflexivity.
Qed.

Lemma chunked_routes_on_raw_chunks_witness :
  credentials_missing cfg_ok = false
  /\ generate_voice_chunked tts_silence cfg_ok (VoiceRequest (Some (str "Hi. Bye.")) None)
     = generate_voice tts_silence cfg_ok (VoiceRequest (Some (str "Hi. Bye.")) None).
Proof.
  split; [reflexivity|].
  exact (chunked_routes_on_raw_chunks tts_silence cfg_ok
           (VoiceRequest (Some (str "Hi. Bye.")) None) (str "Hi. Bye.")
           eq_refl eq_refl ltac:(discriminate)).
Defined.

(** C8, as stated, fails: without credentials a request with an empty text
    is answered with status 500. *)
Lemma empty_text_without_credentials :
  generate_voice tts_silence cfg_unset (VoiceRequest (Some []) None)
  = Json_error
      (str "Cloudflare credentials not configured. Please check your .env file.") 500
  /\ status_of (generate_voice tts_silence cfg_unset (VoiceRequest (Some []) None))
     <> 400%nat.
Proof. split; [reflexivity|vm_compute; discriminate]. Qed.

(** C8, amended: with credentials configured, a request to [generate_voice]
    whose text is missing or empty is answered with status 400 and the error
    "Text is required". *)
Theorem missing_text_is_400
        (tts : text -> text -> response) (cfg : config) (req : voice_request) :
  credentials_missing cfg = false ->
  req_text req = None \/ req_text req = Some [] ->
  generate_voice tts cfg req = Json_error (str "Text is required") 400.
Proof.
  intros Hc Ht. unfold generate_voice. rewrite Hc.
  destruct Ht as [-> | ->]; reflexivity.
Qed.

Lemma missing_text_is_400_witness :
  credentials_missing cfg_ok = false
  /\ generate_voice tts_silence cfg_ok (VoiceRequest None (Some (str "FR")))
     = Json_error (str "Text is required") 400.
Proof.
  split; [reflexivity|].
  exact (missing_text_is_400 tts_silence cfg_ok (VoiceRequest None (Some (str "FR")))
           eq_refl (or_introl eq_refl)).
Defined.

(** C9: while the Cloudflare credentials are absent, both endpoints answer
    every request, also one whose text is missing or empty, with status 500
    and their configuration error, never with status 400. *)
Theorem credentials_checked_first
        (tts : text -> text -> response) (cfg : config) (req : voice_request) :
  credentials_missing cfg = true ->
  generate_voice tts cfg req
  = Json_error
      (str "Cloudflare credentials not configured. Please check your .env file.") 500
  /\ generate_voice_chunked tts cfg req
     = Json_error (str "Cloudflare credentials not configured.") 500
  /\ status_of (generate_voice tts cfg req) <> 400%nat
  /\ status_of (generate_voice_chunked tts cfg req) <> 400%nat.
Proof.
  intro H. unfold generate_voice, generate_voice_chunked. rewrite H.
  repeat split; cbn [status_of]; discriminate.
Qed.

Lemma credentials_checked_first_witness :
  credentials_missing (Config (Some (str "acct")) (Some []) None) = true
  /\ status_of (generate_voice tts_silence (Config (Some (str "acct")) (Some []) None)
                               (VoiceRequest None None)) = 500%nat
  /\ status_of (generate_voice_chunked tts_silence (Config (Some (str "acct")) (Some []) None)
                                       (VoiceRequest (Some []) None)) = 500%nat.
Proof.
  split; [reflexivity|].
  destruct (credentials_checked_first tts_silence
              (Config (Some (str "acct")) (Some []) None) (VoiceRequest None None) eq_refl)
    as [H1 _].
  destruct (credentials_checked_first tts_silence
              (Config (Some (str "acct")) (Some []) None) (VoiceRequest (Some []) None) eq_refl)
    as [_ [H2 _]].
  rewrite H1, H2. split; reflexivity.
Defined.

(** C10, as stated, fails: the reply of a successful chat call can keep a
    punctuation run.  For the model answer ["!#!"] the reply is ["!!"]. *)
Lemma chat_reply_keeps_punctuation_run :
  chat_with_gemini (fun _ _ => Model_text (str "!#!")) nd_none cfg_ok
                   (ChatRequest (Some (str "hi")) [])
  = Json_chat (str "!!") true
  /\ punctuation_normalized (str "!!") = false.
Proof. split; vm_compute; reflexivity. Qed.

(** C10, amended: on every successful call, the chat endpoint returns the
    normalizer applied to the answer of the model, with [success] true; that
    reply is trimmed and contains no blocklisted symbol. *)
Theorem chat_reply_is_cleaned
        (ask_model : text -> list (text * text) -> model_outcome)
        (nd : charset) (cfg : config) (req : chat_request) (reply : text) (ok : bool) :
  chat_with_gemini ask_model nd cfg req = Json_chat reply ok ->
  exists raw,
    ask_model (get_default (req_message req) []) (req_history req) = Model_text raw
    /\ reply = clean_text_for_tts nd raw
    /\ ok = true
    /\ strip reply = reply
    /\ existsb is_blocklisted reply = false.
Proof.
  unfold chat_with_gemini.
  destruct (negb (truthy (GEMINI_API_KEY cfg))); [discriminate|].
  destruct (negb (nonempty (get_default (req_message req) []))); [discriminate|].
  destruct (ask_model (get_default (req_message req) []) (req_history req)) as [raw|e];
    [|discriminate].
  intros [= <- <-]. exists raw. repeat split.
  - apply clean_trimmed.
  - destruct (existsb is_blocklisted (clean_text_for_tts nd raw)) eqn:E; [|reflexivity].
    apply existsb_exists in E. destruct E as [c [Hin Hc]].
    rewrite (clean_no_symbol nd raw c Hin) in Hc. discriminate.
Qed.

Lemma chat_reply_is_cleaned_witness :
  chat_with_gemini (fun _ _ => Model_text (str "**Well** done!!")) nd_none cfg_ok
                   (ChatRequest (Some (str "hi")) [])
  = Json_chat (str "Well done!") true
  /\ exists raw,
    Model_text (str "**Well** done!!") = Model_text raw
    /\ str "Well done!" = clean_text_for_tts nd_none raw
    /\ true = true
    /\ strip (str "Well done!") = str "Well done!"
    /\ existsb is_blocklisted (str "Well done!") = false.
Proof.
  split; [reflexivity|].
  exact (chat_reply_is_cleaned (fun _ _ => Model_text (str "**Well** done!!")) nd_none cfg_ok
           (ChatRequest (Some (str "hi")) []) (str "Well done!") true eq_refl).
Defined.

(** * Further properties *)

(** ** The chunking loop: counts, greedy filling, short texts *)

Lemma pieces_nonempty (l : list seg) : pieces l <> [].
Proof.
  destruct l as [|[c|w gs] l]; cbn [pieces]; try discriminate.
  destruct (pieces l); discriminate.
Qed.

Lemma sentences_nonempty (t : text) : sentences_of t <> [].
Proof. apply pieces_nonempty. Qed.

Lemma concat_length_groups (gs : list (list text)) :
  Forall (fun g => g <> []) gs -> (length gs <= length (concat gs))%nat.
Proof.
  induction 1 as [|g gs Hg _ IH]; [simpl; lia|].
  simpl. rewrite length_app. destruct g; [contradiction|]. simpl. lia.
Qed.

(** The endpoint's [total] is at least 1 and at most the number of
    sentences. *)
Theorem chunk_count_bounds (t : text) :
  (1 <= length (chunk_text t) <= length (sentences_of t))%nat.
Proof.
  destruct (chunk_text_groups t) as [gs [H1 [H2 [H3 _]]]].
  rewrite H1, length_map, <- H2. split; [|apply concat_length_groups; exact H3].
  destruct gs as [|g gs]; [|simpl; lia].
  exfalso. apply (sentences_nonempty t). rewrite <- H2. reflexivity.
Qed.

Lemma chunk_loop_greedy (ss : list text) :
  forall g chunks,
  exists gs,
    chunk_loop ss chunks (sentence_run g) = chunks ++ map chunk_of gs /\
    concat gs = g ++ ss /\
    greedy_groups gs /\
    (g <> [] -> exists g1 gs', gs = (g ++ g1) :: gs').
Proof.
  induction ss as [|s more IH]; intros g chunks.
  - cbn [chunk_loop]. rewrite nonempty_flat. destruct g as [|s0 g'].
    + exists []. simpl. rewrite app_nil_r. repeat split; [constructor|contradiction].
    + exists [s0 :: g']. simpl. rewrite !app_nil_r. repeat split; [constructor|].
      intros _. exists [], []. rewrite app_nil_r. reflexivity.
  - cbn [chunk_loop].
    destruct (length (sentence_run g) + length s <? 400)%nat eqn:Hfit.
    + destruct (IH (g ++ [s]) chunks) as [gs [H1 [H2 [H3 H4]]]].
      exists gs. rewrite <- flat_snoc, H1, H2, <- app_assoc. repeat split; auto.
      intros _. destruct H4 as [g1 [gs' ->]]; [destruct g; discriminate|].
      exists (s :: g1), gs'. rewrite <- app_assoc. reflexivity.
    + apply Nat.ltb_ge in Hfit.
      destruct (IH [s] (if nonempty (sentence_run g)
                        then chunks ++ [strip (sentence_run g)] else chunks))
        as [gs [H1 [H2 [H3 H4]]]].
      rewrite flat_single in H1. rewrite H1, nonempty_flat.
      destruct H4 as [g1 [gs' ->]]; [discriminate|].
      destruct g as [|s0 g'] eqn:E.
      * exists (([s] ++ g1) :: gs'). repeat split; auto. contradiction.
      * rewrite <- E in *. exists (g :: ([s] ++ g1) :: gs').
        simpl. simpl in H2. rewrite H2, <- app_assoc. repeat split.
        -- apply gg_cons; [exact Hfit|exact H3].
        -- intros _. exists [], (((s :: g1)) :: gs'). rewrite app_nil_r. reflexivity.
Qed.

(** The chunks are filled greedily: the groups of sentences behind the chunks
    are consecutive, and a group ends only where the buffer of the group plus
    the next sentence would have 400 characters or more. *)
Theorem chunks_filled_greedily (t : text) :
  exists groups,
    chunk_text t = map chunk_of groups /\
    concat groups = sentences_of t /\
    greedy_groups groups.
Proof.
  destruct (chunk_loop_greedy (sentences_of t) [] []) as [gs [H1 [H2 [H3 _]]]].
  exists gs. auto.
Qed.

Lemma sentence_run_app (g h : list text) :
  sentence_run (g ++ h) = sentence_run g ++ sentence_run h.
Proof. unfold sentence_run. apply flat_map_app. Qed.

Lemma chunk_loop_fits (ss : list text) :
  forall g chunks,
  (length (sentence_run (g ++ ss)) <= 400)%nat ->
  g ++ ss <> [] ->
  chunk_loop ss chunks (sentence_run g) = chunks ++ [chunk_of (g ++ ss)].
Proof.
  induction ss as [|s more IH]; intros g chunks Hlen Hne.
  - rewrite app_nil_r in *. cbn [chunk_loop]. rewrite nonempty_flat.
    destruct g; [contradiction|reflexivity].
  - cbn [chunk_loop].
    assert ((length (sentence_run g) + length s <? 400)%nat = true) as ->.
    { apply Nat.ltb_lt. rewrite sentence_run_app in Hlen.
      change (s :: more) with ([s] ++ more) in Hlen.
      rewrite sentence_run_app, flat_single, !length_app in Hlen. simpl in Hlen. lia. }
    rewrite <- flat_snoc.
    replace (g ++ s :: more) with ((g ++ [s]) ++ more) in * by (rewrite <- app_assoc; reflexivity).
    apply IH; [exact Hlen|destruct g; discriminate].
Qed.

Lemma interleaved_run_length (t : text) (ss : list text) :
  interleaved t ss -> (length (sentence_run ss) <= length t + 1)%nat.
Proof.
  induction 1 as [p|p w s ps Hne Hw _ IH].
  - rewrite flat_single, length_app. simpl. lia.
  - change (p :: ps) with ([p] ++ ps).
    rewrite sentence_run_app, flat_single, !length_app. simpl.
    destruct w; [contradiction|]. simpl. lia.
Qed.

Lemma short_text_one_chunk (t : text) :
  (length t < 400)%nat -> chunk_text t = [chunk_of (sentences_of t)].
Proof.
  intro H. unfold chunk_text.
  change (@nil char) with (sentence_run []).
  rewrite (chunk_loop_fits (sentences_of t) [] []); [reflexivity| |apply sentences_nonempty].
  pose proof (interleaved_run_length _ _ (sentences_interleaved t)). simpl. lia.
Qed.

(** A text of fewer than 400 characters is never split: it gives one chunk,
    made of all its sentences, and with credentials configured the chunked
    endpoint answers such a non-empty text exactly as [generate_voice]. *)
Theorem short_text_is_not_chunked
        (tts : text -> text -> response) (cfg : config) (req : voice_request) (t : text) :
  credentials_missing cfg = false ->
  req_text req = Some t ->
  t <> [] ->
  (length t < 400)%nat ->
  chunk_text t = [chunk_of (sentences_of t)]
  /\ generate_voice_chunked tts cfg req = generate_voice tts cfg req.
Proof.
  intros Hc Ht Hne Hlen. pose proof (short_text_one_chunk t Hlen) as H1.
  split; [exact H1|].
  unfold generate_voice_chunked. rewrite Hc, Ht. cbn [get_default].
  destruct t as [|c t']; [contradiction|]. cbn [nonempty negb].
  rewrite H1. reflexivity.
Qed.

Lemma short_text_is_not_chunked_witness :
  credentials_missing cfg_ok = false
  /\ (length (str "One. Two! Three?") < 400)%nat
  /\ chunk_text (str "One. Two! Three?") = [str "One. Two! Three?"]
  /\ generate_voice_chunked tts_silence cfg_ok (VoiceRequest (Some (str "One. Two! Three?")) None)
     = Wav_file [].
Proof.
  split; [reflexivity|]. split; [vm_compute; lia|].
  destruct (short_text_is_not_chunked tts_silence cfg_ok
              (VoiceRequest (Some (str "One. Two! Three?")) None) (str "One. Two! Three?")
              eq_refl eq_refl ltac:(discriminate) ltac:(vm_compute; lia)) as [H1 H2].
  split; [rewrite H1; vm_compute; reflexivity|rewrite H2; reflexivity].
Defined.

(** ** Where the text is split *)

Lemma scan_go_skip (r : regex) (k : nat) :
  forall b s, scan_go r k b s = scan_go r 0 (rev (firstn k s) ++ b) (skipn k s).
Proof.
  induction k as [|k IH]; intros b s; [reflexivity|].
  destruct s as [|c t]; [reflexivity|].
  cbn [scan_go firstn skipn rev]. rewrite IH, <- app_assoc. reflexivity.
Qed.

Lemma space_not_sentence_end (c : char) :
  is_space c = true -> is_sentence_end c = false.
Proof.
  intro H. destruct (is_sentence_end c) eqn:E; [|reflexivity].
  unfold is_sentence_end, any_of in E. simpl in E.
  repeat (apply orb_prop in E; destruct E as [E|E]); try discriminate;
    apply N.eqb_eq in E; subst c; discriminate.
Qed.

Lemma not_end_not_dot (c : char) : is_sentence_end c = false -> one c_dot c = false.
Proof.
  unfold is_sentence_end, any_of, one. simpl. intro H.
  apply orb_false_elim in H. destruct H as [H _]. exact H.
Qed.

Lemma rev_seq_S (m : nat) : rev (seq 1 (S m)) = S m :: rev (seq 1 m).
Proof. rewrite seq_S, rev_app_distr. reflexivity. Qed.

Lemma caps_advance (k : nat) : forall st, caps (advance k st) = caps st.
Proof.
  induction k as [|k IH]; intro st; [reflexivity|].
  cbn [advance]. rewrite IH. destruct st as [b [|c t] gs]; reflexivity.
Qed.

Lemma run_length_le (p : charset) (s : text) :
  forall hi, (run_length p hi s <= length s)%nat.
Proof.
  intro hi. destruct (run_length_prefix p s hi (run_length p hi s)) as [_ H]; [lia|exact H].
Qed.

(** The first match of a greedy quantifier with at least [lo] repetitions. *)
Lemma match_here_greedy (p : charset) (lo : nat) (hi : option nat) (b s : text) :
  match_here (Rep p lo hi true) b s =
  if (lo <=? run_length p hi s)%nat then Some (run_length p hi s, []) else None.
Proof.
  unfold match_here. cbn [run rest]. unfold rep_counts.
  pose proof (run_length_le p s hi) as Hle.
  set (n := run_length p hi s) in *.
  destruct (lo <=? n)%nat eqn:E.
  - apply Nat.leb_le in E.
    replace (S n - lo)%nat with (S (n - lo)) by lia.
    rewrite seq_S, rev_app_distr. cbn [rev app map].
    replace (lo + (n - lo))%nat with n by lia.
    rewrite rest_advance, caps_advance, length_skipn. cbn [rest caps].
    do 2 f_equal. lia.
  - apply Nat.leb_gt in E. replace (S n - lo)%nat with 0%nat by lia. reflexivity.
Qed.

Lemma match_here_boundary (b s : text) :
  match_here re_boundary b s =
  if prev_end b && (1 <=? run_length is_space None s)%nat
  then Some (run_length is_space None s, [])
  else None.
Proof.
  pose proof (match_here_greedy is_space 1 None b s) as G.
  unfold match_here in *. unfold re_boundary. cbn [run rev app before] in *.
  destruct b as [|c b']; [reflexivity|].
  cbn [behind_ok prev_end]. rewrite andb_true_r.
  destruct (is_sentence_end c) eqn:Ec.
  - cbn [flat_map]. rewrite app_nil_r. cbn [andb].
    destruct (1 <=? run_length is_space None s)%nat eqn:E.
    + destruct (map _ _) as [|st' l]; [discriminate|]. exact G.
    + destruct (map _ _) as [|st' l] eqn:Em; [|discriminate].
      destruct (one c_dot c && _); cbn [flat_map]; [rewrite Em|]; reflexivity.
  - rewrite (not_end_not_dot c Ec). reflexivity.
Qed.

Lemma pieces_keeps (s : text) : pieces (map Keep s) = [s].
Proof. induction s as [|c t IH]; [reflexivity|]. cbn [map pieces]. rewrite IH. reflexivity. Qed.

Lemma run_length_head (p : charset) (d : char) (t : text) :
  run_length p None (d :: t) = if p d then S (run_length p None t) else 0%nat.
Proof. reflexivity. Qed.

Lemma scan_boundary_free (s : text) :
  forall b, boundary_free (prev_end b) s = true ->
  scan_go re_boundary 0 b s = map Keep s.
Proof.
  induction s as [|d t IH]; intros b H; [reflexivity|].
  cbn [boundary_free] in H. apply andb_prop in H. destruct H as [H1 H2].
  cbn [scan_go map]. rewrite match_here_boundary, run_length_head.
  assert (prev_end b && (1 <=? (if is_space d then S (run_length is_space None t) else 0))%nat
          = false) as ->.
  { destruct (prev_end b); [|reflexivity]. destruct (is_space d); [discriminate|reflexivity]. }
  f_equal. apply IH. exact H2.
Qed.

Lemma one_sentence_one_chunk (t : text) : chunk_loop [t] [] [] = [strip t].
Proof.
  cbn [chunk_loop]. destruct (length (@nil char) + length t <? 400)%nat.
  - cbn [app]. assert (nonempty (t ++ [c_space]) = true) as -> by (destruct t; reflexivity).
    rewrite strip_app_space. reflexivity.
  - cbn [nonempty]. assert (nonempty (t ++ [c_space]) = true) as -> by (destruct t; reflexivity).
    rewrite strip_app_space. reflexivity.
Qed.

(** A text in which no whitespace comes directly after [.], [!] or [?] is one
    sentence and, however long, one chunk: the trimmed text. With credentials
    configured the chunked endpoint answers it as [generate_voice] does. *)
Theorem unpunctuated_text_is_one_chunk
        (tts : text -> text -> response) (cfg : config) (req : voice_request) (t : text) :
  boundary_free false t = true ->
  sentences_of t = [t]
  /\ chunk_text t = [strip t]
  /\ (credentials_missing cfg = false -> req_text req = Some t ->
      generate_voice_chunked tts cfg req = generate_voice tts cfg req).
Proof.
  intro H.
  assert (sentences_of t = [t]) as Hs.
  { unfold sentences_of, re_split, scan.
    rewrite (scan_boundary_free t [] H). apply pieces_keeps. }
  assert (chunk_text t = [strip t]) as Hc.
  { unfold chunk_text. rewrite Hs. apply one_sentence_one_chunk. }
  repeat split; auto.
  intros Hcfg Ht. unfold generate_voice_chunked, generate_voice.
  rewrite Hcfg, Ht. cbn [get_default]. rewrite Hc.
  destruct (negb (nonempty t)); reflexivity.
Qed.

Lemma unpunctuated_text_is_one_chunk_witness :
  boundary_free false (repeat 97 500 ++ str ".b") = true
  /\ chunk_text (repeat 97 500 ++ str ".b") = [repeat 97 500 ++ str ".b"].
Proof.
  split; [vm_compute; reflexivity|].
  destruct (unpunctuated_text_is_one_chunk tts_silence cfg_ok (VoiceRequest None None)
              (repeat 97 500 ++ str ".b") ltac:(vm_compute; reflexivity)) as [_ [H _]].
  rewrite H. vm_compute. reflexivity.
Defined.

Lemma ends_sentence_cons (e : bool) (d : char) (p : text) :
  ends_sentence e (d :: p) = ends_sentence (is_sentence_end d) p.
Proof.
  unfold ends_sentence. cbn [rev]. destruct (rev p); reflexivity.
Qed.

Lemma run_length_stop (p : charset) (s : text) :
  match skipn (run_length p None s) s with
  | c :: _ => p c = false
  | [] => True
  end.
Proof.
  induction s as [|d t IH]; [exact I|].
  rewrite run_length_head. destruct (p d) eqn:E; [exact IH|exact E].
Qed.

Lemma prev_end_after_spaces (w b : text) :
  w <> [] -> forallb is_space w = true -> prev_end (rev w ++ b) = false.
Proof.
  intros Hne Hw. destruct (rev w) as [|c r] eqn:E.
  - apply (f_equal (@rev char)) in E. rewrite rev_involutive in E. contradiction.
  - cbn [app prev_end]. apply space_not_sentence_end.
    rewrite forallb_forall in Hw. apply Hw. apply in_rev. rewrite E. left. reflexivity.
Qed.

Lemma scan_boundary_cut (n : nat) :
  forall s b, (length s <= n)%nat ->
  cut_at_boundaries (prev_end b) s (pieces (scan_go re_boundary 0 b s)).
Proof.
  induction n as [|n IH]; intros s b Hlen.
  - destruct s; [apply cut_last|simpl in Hlen; lia].
  - destruct s as [|d t]; [apply cut_last|].
    cbn [scan_go]. rewrite match_here_boundary.
    destruct (prev_end b && (1 <=? run_length is_space None (d :: t))%nat) eqn:E.
    + apply andb_prop in E. destruct E as [Eb En]. apply Nat.leb_le in En.
      destruct (run_length is_space None (d :: t)) as [|m] eqn:Em; [lia|].
      rewrite scan_go_skip. cbn [pieces].
      destruct (run_length_prefix is_space (d :: t) None (S m)) as [Hall Hle]; [lia|].
      pose proof (run_length_stop is_space (d :: t)) as Hstop. rewrite Em in Hstop.
      cbn [skipn] in Hstop.
      rewrite <- (firstn_skipn (S m) (d :: t)) at 1.
      change (firstn (S m) (d :: t) ++ skipn (S m) (d :: t))
        with ([] ++ firstn (S m) (d :: t) ++ skipn m t).
      apply cut_more.
      * exact Eb.
      * discriminate.
      * exact Hall.
      * destruct (skipn m t); [reflexivity|exact Hstop].
      * replace false with (prev_end (rev (firstn m t) ++ d :: b)).
        -- apply IH. rewrite length_skipn. simpl in Hlen. lia.
        -- change (rev (firstn m t) ++ d :: b) with (rev (firstn m t) ++ [d] ++ b).
           rewrite app_assoc. change (rev (firstn m t) ++ [d]) with (rev (firstn (S m) (d :: t))).
           apply prev_end_after_spaces; [discriminate|exact Hall].
    + assert (cut_at_boundaries (is_sentence_end d) t
                (pieces (scan_go re_boundary 0 (d :: b) t))) as IHt
        by (apply (IH t (d :: b)); simpl in Hlen; lia).
      assert (match match_here re_boundary b (d :: t) with
              | Some (S k, gs) =>
                  Hit (firstn (S k) (d :: t)) gs :: scan_go re_boundary k (d :: b) t
              | _ => Keep d :: scan_go re_boundary 0 (d :: b) t
              end = Keep d :: scan_go re_boundary 0 (d :: b) t) as Hk
        by (rewrite match_here_boundary, E; reflexivity).
      rewrite match_here_boundary, E in Hk. cbn [pieces].
      inversion IHt as [e p He Hp Hps|e p w s' ps Hend Hne Hw Hs Hcut He Hp Hps].
      * apply cut_last.
      * change (d :: p ++ w ++ s') with ((d :: p) ++ w ++ s').
        apply cut_more; auto. rewrite ends_sentence_cons. exact Hend.
Qed.

Lemma sentences_cut (t : text) : cut_at_boundaries false t (sentences_of t).
Proof. exact (scan_boundary_cut (length t) t [] (le_n _)). Qed.

Lemma ends_sentence_last (p : text) :
  ends_sentence false p = true ->
  exists p' c, p = p' ++ [c] /\ is_sentence_end c = true.
Proof.
  unfold ends_sentence. destruct (rev p) as [|c r] eqn:E; [discriminate|].
  intro H. exists (rev r), c. split; [|exact H].
  apply (f_equal (@rev char)) in E. rewrite rev_involutive in E. exact E.
Qed.

Lemma cut_shape (e : bool) (t : text) (ss : list text) :
  cut_at_boundaries e t ss ->
  forall pre s post, ss = pre ++ s :: post ->
  (post <> [] -> ends_sentence (match pre with [] => e | _ :: _ => false end) s = true)
  /\ (pre <> [] -> starts_with_space s = false).
Proof.
  induction 1 as [e p|e p w s' ps Hend Hne Hw Hs Hcut IH]; intros pre s post E.
  - destruct pre as [|x pre]; cbn [app] in E; [|destruct pre; discriminate].
    injection E as <- <-. split; intro H; contradiction.
  - destruct pre as [|x pre]; cbn [app] in E.
    + injection E as <- <-. split; [intros _; exact Hend|intro H; contradiction].
    + injection E as <- E. destruct (IH pre s post E) as [IH1 IH2].
      split.
      * intro Hp. specialize (IH1 Hp). destruct pre; exact IH1.
      * intros _. destruct pre as [|y pre]; [|apply IH2; discriminate].
        cbn [app] in E. subst ps. inversion Hcut; subst.
        -- exact Hs.
        -- destruct s; [reflexivity|exact Hs].
Qed.

Lemma sentences_end_at_punctuation_shape
      (t : text) (pre : list text) (s : text) (post : list text) :
  sentences_of t = pre ++ s :: post ->
  (post <> [] -> exists s' c, s = s' ++ [c] /\ is_sentence_end c = true)
  /\ (pre <> [] -> starts_with_space s = false).
Proof.
  intro E. destruct (cut_shape _ _ _ (sentences_cut t) pre s post E) as [H1 H2].
  split; [|exact H2].
  intro Hp. apply ends_sentence_last. specialize (H1 Hp). destruct pre; exact H1.
Qed.

(** The chunker cuts sentences only after [.], [!] or [?]: every sentence
    but the last ends with one of them, and no sentence but the first begins
    with whitespace. *)
Theorem sentences_end_at_punctuation (t : text) (pre : list text) (s : text) (post : list text) :
  sentences_of t = pre ++ s :: post ->
  (post <> [] -> exists s' c, s = s' ++ [c] /\ is_sentence_end c = true)
  /\ (pre <> [] -> starts_with_space s = false).
Proof. apply sentences_end_at_punctuation_shape. Qed.

Lemma sentences_end_at_punctuation_witness :
  sentences_of (str "Wait...  Really?! Yes") = [str "Wait..."] ++ str "Really?!" :: [str "Yes"]
  /\ (exists s' c, str "Really?!" = s' ++ [c] /\ is_sentence_end c = true)
  /\ starts_with_space (str "Really?!") = false.
Proof.
  split; [vm_compute; reflexivity|].
  destruct (sentences_end_at_punctuation (str "Wait...  Really?! Yes")
              [str "Wait..."] (str "Really?!") [str "Yes"] ltac:(vm_compute; reflexivity))
    as [H1 H2].
  split; [apply H1; discriminate|apply H2; discriminate].
Defined.

Lemma strip_nil_all_space (x : text) : strip x = [] -> forallb is_space x = true.
Proof.
  unfold strip. intro H. apply rstrip_nil_space in H.
  destruct (lstrip_split x) as [l [E Hl]]. rewrite E, forallb_app, Hl, H. reflexivity.
Qed.

(** Only the last chunk can be empty: every chunk that has a successor holds
    a sentence ending with [.], [!] or [?]. *)
Theorem only_last_chunk_can_be_empty (t : text) (pre : list text) (c : text) (post : list text) :
  chunk_text t = pre ++ c :: post -> post <> [] -> c <> [].
Proof.
  intros E Hpost Hc.
  destruct (chunk_text_groups t) as [gs [H1 [H2 [H3 _]]]].
  rewrite H1 in E. apply map_eq_app in E. destruct E as [gpre [gtl [-> [_ E]]]].
  apply map_eq_cons in E. destruct E as [g [gpost [-> [Eg Ep]]]].
  apply Forall_app in H3. destruct H3 as [_ H3].
  inversion H3 as [|g0 l0 Hg Hrest]; subst g0 l0.
  destruct g as [|s g']; [contradiction|].
  destruct gpost as [|g2 gpost]; [simpl in Ep; subst post; contradiction|].
  inversion Hrest as [|g0 l0 Hg2 _]; subst g0 l0.
  destruct g2 as [|s2 g2']; [contradiction|].
  rewrite concat_app in H2. cbn [concat app] in H2.
  destruct (sentences_end_at_punctuation_shape t (concat gpre) s
              (g' ++ (s2 :: g2') ++ concat gpost)) as [Hend _].
  { rewrite <- H2. reflexivity. }
  destruct Hend as [s' [c0 [-> Hc0]]]; [destruct g'; discriminate|].
  rewrite Hc in Eg. apply strip_nil_all_space in Eg.
  rewrite forallb_forall in Eg.
  assert (is_space c0 = true) as Hsp.
  { apply Eg. unfold sentence_run. cbn [flat_map].
    apply in_or_app. left. apply in_or_app. left. apply in_or_app. right. left. reflexivity. }
  rewrite (space_not_sentence_end c0 Hsp) in Hc0. discriminate.
Qed.

Lemma only_last_chunk_can_be_empty_witness :
  chunk_text (repeat 97 398 ++ str ". ") = [repeat 97 398 ++ str "."] ++ [] :: []
  /\ chunk_text (repeat 97 398 ++ str ". b") = [] ++ (repeat 97 398 ++ str ".") :: [str "b"]
  /\ repeat 97 398 ++ str "." <> [].
Proof.
  split; [vm_compute; reflexivity|]. split; [vm_compute; reflexivity|].
  apply (only_last_chunk_can_be_empty (repeat 97 398 ++ str ". b") []
           (repeat 97 398 ++ str ".") [str "b"]);
    [vm_compute; reflexivity|discriminate].
Defined.

(** ** The normalizer: where the characters of the output come from *)

Lemma incl_skipn (k : nat) (l : text) : incl (skipn k l) l.
Proof.
  intros x H. rewrite <- (firstn_skipn k l). apply in_or_app. right. exact H.
Qed.

Lemma incl_firstn (k : nat) (l : text) : incl (firstn k l) l.
Proof.
  intros x H. rewrite <- (firstn_skipn k l). apply in_or_app. left. exact H.
Qed.

Lemma run_rest_caps (r : regex) :
  forall st st', In st' (run r st) ->
  incl (rest st') (rest st)
  /\ forall g, In g (caps st') -> In g (caps st) \/ incl g (rest st).
Proof.
  induction r as [p|p lo hi greedy|r1 IH1 r2 IH2|r1 IH1 r2 IH2|r IH| |ps];
    intros st st' H; cbn [run] in H.
  - destruct st as [b [|c t] gs]; cbn [rest] in *; [contradiction|].
    destruct (p c); [|contradiction]. destruct H as [<-|[]]. cbn [step_char rest caps].
    split; [apply incl_tl, incl_refl|auto].
  - apply in_map_iff in H. destruct H as [k [<- _]].
    rewrite rest_advance, caps_advance. split; [apply incl_skipn|auto].
  - apply in_flat_map in H. destruct H as [mid [Hm H]].
    destruct (IH1 _ _ Hm) as [A1 A2]. destruct (IH2 _ _ H) as [B1 B2].
    split; [exact (incl_tran B1 A1)|].
    intros g Hg. destruct (B2 g Hg) as [Hc|Hi]; [exact (A2 g Hc)|].
    right. exact (incl_tran Hi A1).
  - apply in_app_or in H. destruct H as [H|H]; [exact (IH1 _ _ H)|exact (IH2 _ _ H)].
  - apply in_map_iff in H. destruct H as [mid [<- Hm]].
    destruct (IH _ _ Hm) as [A1 A2]. cbn [close_group rest caps].
    split; [exact A1|].
    intros g Hg. apply in_app_or in Hg. destruct Hg as [Hg|[<-|[]]]; [exact (A2 g Hg)|].
    right. apply incl_firstn.
  - destruct (before st) as [|c b]; [|destruct (c =? c_newline)];
      simpl in H; try contradiction; destruct H as [<-|[]];
      (split; [apply incl_refl|auto]).
  - destruct (behind_ok (rev ps) (before st)); simpl in H; [|contradiction].
    destruct H as [<-|[]]. split; [apply incl_refl|auto].
Qed.

Lemma match_here_groups (r : regex) (b s : text) (n : nat) (gs : list text) :
  match_here r b s = Some (n, gs) -> forall g, In g gs -> incl g s.
Proof.
  unfold match_here. destruct (run r (MState b s [])) as [|st' l] eqn:E; [discriminate|].
  intros [= _ <-] g Hg.
  destruct (run_rest_caps r (MState b s []) st') as [_ H]; [rewrite E; left; reflexivity|].
  destruct (H g Hg) as [[]|Hi]. exact Hi.
Qed.

(** Every hit of the scan is the first match at some position of the text. *)
Lemma scan_hit_inv (r : regex) (w : text) (gs : list text) (s : text) :
  forall k b, In (Hit w gs) (scan_go r k b s) ->
  exists b' s' n,
    match_here r b' s' = Some (S n, gs) /\ w = firstn (S n) s' /\ incl s' s.
Proof.
  induction s as [|c t IH]; intros k b H; [destruct k; contradiction|].
  assert (forall k' b', In (Hit w gs) (scan_go r k' b' t) ->
          exists b' s' n,
            match_here r b' s' = Some (S n, gs) /\ w = firstn (S n) s' /\ incl s' (c :: t))
    as Htail.
  { intros k' b' H'. destruct (IH k' b' H') as [b2 [s2 [n [A [B C]]]]].
    exists b2, s2, n. repeat split; auto. apply incl_tl. exact C. }
  destruct k as [|k]; cbn [scan_go] in H; [|eauto].
  destruct (match_here r b (c :: t)) as [[[|n] gs']|] eqn:E.
  - destruct H as [H|H]; [discriminate|eauto].
  - destruct H as [H|H]; [|eauto]. injection H as <- <-.
    exists b, (c :: t), n. repeat split; auto. apply incl_refl.
  - destruct H as [H|H]; [discriminate|eauto].
Qed.

Lemma expand_in (repl : list ritem) (gs : list text) (c : char) :
  In c (expand repl gs) -> In (RLit c) repl \/ exists g, In g gs /\ In c g.
Proof.
  unfold expand. intro H. apply in_flat_map in H. destruct H as [it [Hit Hc]].
  destruct it as [d|n].
  - destruct Hc as [<-|[]]. left. exact Hit.
  - right. destruct (nth_in_or_default (pred n) gs []) as [Hn|Hn].
    + eauto.
    + rewrite Hn in Hc. contradiction.
Qed.

(** The output of [re.sub] is made of characters of the text and of literal
    characters of the replacement. *)
Lemma sub_incl (r : regex) (repl : list ritem) (s : text) (c : char) :
  In c (re_sub r repl s) -> In c s \/ In (RLit c) repl.
Proof.
  unfold re_sub. intro H. apply in_flat_map in H. destruct H as [x [Hx Hc]].
  destruct x as [d|w gs]; cbn [seg_out] in Hc.
  - destruct Hc as [->|[]]. left. exact (keep_in_scan _ _ _ _ _ Hx).
  - apply expand_in in Hc. destruct Hc as [Hc|[g [Hg Hc]]]; [right; exact Hc|].
    left. destruct (scan_hit_inv _ _ _ _ _ _ Hx) as [b' [s' [n [Hm [_ Hs]]]]].
    apply Hs. exact (match_here_groups _ _ _ _ _ Hm g Hg c Hc).
Qed.

(** When every match holds the literal it is replaced by, the output has only
    characters of the text. *)
Lemma sub_lit_present (r : regex) (l : text) (s : text) (c : char) :
  (forall b s' n gs, match_here r b s' = Some (S n, gs) -> incl l (firstn (S n) s')) ->
  In c (re_sub r (lit l) s) -> In c s.
Proof.
  intros Hr H. unfold re_sub in H. apply in_flat_map in H. destruct H as [x [Hx Hc]].
  destruct x as [d|w gs]; cbn [seg_out] in Hc.
  - destruct Hc as [->|[]]. exact (keep_in_scan _ _ _ _ _ Hx).
  - rewrite expand_lit in Hc.
    destruct (scan_hit_inv _ _ _ _ _ _ Hx) as [b' [s' [n [Hm [_ Hs]]]]].
    apply Hs. apply (incl_firstn (S n)). exact (Hr _ _ _ _ Hm c Hc).
Qed.

Lemma greedy_match_head (p : charset) (lo : nat) (hi : option nat)
      (b s : text) (n : nat) (gs : list text) :
  match_here (Rep p lo hi true) b s = Some (S n, gs) ->
  exists c t, s = c :: t /\ p c = true.
Proof.
  rewrite match_here_greedy. destruct (lo <=? run_length p hi s)%nat; [|discriminate].
  intros [= E _].
  destruct (run_length_prefix p s hi 1) as [Hall _]; [lia|].
  destruct s as [|c t]; [destruct hi as [[|h]|]; discriminate|].
  simpl in Hall. rewrite andb_true_r in Hall. eauto.
Qed.

Lemma repeat_incl_head (c : char) (k : nat) (s : text) (n : nat) (d : char) (t : text) :
  s = d :: t -> d = c -> incl (repeat c k) (firstn (S n) s).
Proof.
  intros -> -> x Hx. apply repeat_spec in Hx. subst x. left. reflexivity.
Qed.

Lemma one_eq (c d : char) : one c d = true -> d = c.
Proof. unfold one. apply N.eqb_eq. Qed.

Lemma any_of_single (c d : char) : any_of [c] d = true -> d = c.
Proof. unfold any_of. simpl. rewrite orb_false_r. apply N.eqb_eq. Qed.

Lemma skipn_head_in (k : nat) :
  forall (s : text) c r, skipn k s = c :: r -> In c (firstn (S k) s).
Proof.
  induction k as [|k IH]; intros s c r H.
  - destruct s; [discriminate|]. injection H as -> _. left. reflexivity.
  - destruct s as [|d t]; [discriminate|]. right. exact (IH t c r H).
Qed.

Lemma space_dot_match (b s : text) (n : nat) (gs : list text) :
  match_here re_space_dot b s = Some (S n, gs) -> incl [c_dot] (firstn (S n) s).
Proof.
  unfold match_here. destruct (run re_space_dot (MState b s [])) as [|st' l] eqn:E;
    [discriminate|].
  intros [= En _].
  assert (In st' (run re_space_dot (MState b s []))) as Hin by (rewrite E; left; reflexivity).
  unfold re_space_dot in Hin. cbn [run] in Hin.
  apply in_flat_map in Hin. destruct Hin as [mid [Hm Hin]].
  apply in_map_iff in Hm. destruct Hm as [k [<- _]].
  cbn [run] in Hin. rewrite rest_advance in Hin. cbn [rest] in Hin.
  destruct (skipn k s) as [|c r] eqn:Ek; [contradiction|].
  destruct (one c_dot c) eqn:Ec; [|contradiction].
  destruct Hin as [<-|[]]. apply one_eq in Ec. subst c.
  assert (rest (step_char (advance k (MState b s []))) = r) as Hr.
  { rewrite rest_step_char, rest_advance. cbn [rest]. rewrite Ek. reflexivity. }
  rewrite Hr in En.
  assert (length (skipn k s) = S (length r)) as Hl by (rewrite Ek; reflexivity).
  rewrite length_skipn in Hl.
  assert (n = k) by lia. subst n.
  intros x [<-|[]]. exact (skipn_head_in k s _ r Ek).
Qed.

Lemma compose_adds_only_space (f g : text -> text) :
  adds_only_space f -> adds_only_space g -> adds_only_space (fun s => g (f s)).
Proof.
  intros Hf Hg s c H. destruct (Hg _ _ H) as [H'|H']; [exact (Hf _ _ H')|right; exact H'].
Qed.

Lemma rules_add_only_space (nd : charset) :
  Forall (fun rule => adds_only_space (re_sub (fst rule) (snd rule))) (rules nd).
Proof.
  unfold rules.
  repeat (apply Forall_cons; [cbn [fst snd]; intros s c H|]); try apply Forall_nil.
  - apply sub_incl in H. destruct H as [H|[H|[]]]; [auto|discriminate].
  - apply sub_incl in H. destruct H as [H|[H|[]]]; [auto|discriminate].
  - apply sub_incl in H. destruct H as [H|[H|[]]]; [auto|discriminate].
  - left. exact (sub_delete_incl _ _ _ H).
  - left. exact (sub_delete_incl _ _ _ H).
  - apply sub_lit_incl in H. destruct H as [H|[<-|[]]]; auto.
  - apply sub_incl in H. destruct H as [H|[H|[H|[H|[]]]]];
      [auto|discriminate|injection H as <-; auto|discriminate].
  - left. revert H. apply sub_lit_present. intros b s' n gs Hm.
    destruct (greedy_match_head _ _ _ _ _ _ _ Hm) as [d [t [E Hd]]].
    exact (repeat_incl_head c_dot 14 s' n d t E (one_eq _ _ Hd)).
  - left. revert H. apply sub_lit_present. intros b s' n gs Hm.
    destruct (greedy_match_head _ _ _ _ _ _ _ Hm) as [d [t [E Hd]]].
    exact (repeat_incl_head c_dot 3 s' n d t E (one_eq _ _ Hd)).
  - left. revert H. apply sub_lit_present. intros b s' n gs Hm.
    destruct (greedy_match_head _ _ _ _ _ _ _ Hm) as [d [t [E Hd]]].
    exact (repeat_incl_head c_bang 1 s' n d t E (any_of_single _ _ Hd)).
  - left. revert H. apply sub_lit_present. intros b s' n gs Hm.
    destruct (greedy_match_head _ _ _ _ _ _ _ Hm) as [d [t [E Hd]]].
    exact (repeat_incl_head c_question 1 s' n d t E (any_of_single _ _ Hd)).
  - left. exact (sub_delete_incl _ _ _ H).
  - left. revert H. apply sub_lit_present. exact space_dot_match.
  - apply sub_lit_incl in H. destruct H as [H|[<-|[]]]; auto.
Qed.

Lemma fold_adds_only_space (rs : list (regex * list ritem)) :
  Forall (fun rule => adds_only_space (re_sub (fst rule) (snd rule))) rs ->
  adds_only_space (fun s => fold_left (fun t rule => re_sub (fst rule) (snd rule) t) rs s).
Proof.
  induction 1 as [|rule rs Hr _ IH]; [intros s c H; left; exact H|].
  cbn [fold_left]. exact (compose_adds_only_space _ _ Hr IH).
Qed.

Lemma clean_adds_only_space (nd : charset) : adds_only_space (clean_text_for_tts nd).
Proof.
  intros s c H. rewrite clean_as_rules in H. apply strip_incl in H.
  exact (fold_adds_only_space _ (rules_add_only_space nd) s c H).
Qed.

(** The normalizer invents nothing but spaces: every character of its output
    is a character of its input or a space. *)
Theorem clean_output_from_input (nd : charset) (t : text) :
  forallb (fun c => any_of t c || (c =? c_space)) (clean_text_for_tts nd t) = true.
Proof.
  apply forallb_forall. intros c H.
  destruct (clean_adds_only_space nd t c H) as [Hin| ->]; [|apply orb_true_r].
  apply orb_true_intro. left. unfold any_of. apply existsb_exists.
  exists c. split; [exact Hin|apply N.eqb_refl].
Qed.

Lemma lstrip_all_space (s : text) : forallb is_space s = true -> lstrip s = [].
Proof.
  induction s as [|c t IH]; [reflexivity|].
  simpl. intro H. apply andb_prop in H. destruct H as [-> H]. exact (IH H).
Qed.

(** A text made only of whitespace and blocklisted symbols is normalized
    to the empty text. *)
Theorem clean_blank_is_empty (nd : charset) (t : text) :
  forallb (fun c => is_space c || is_blocklisted c) t = true ->
  clean_text_for_tts nd t = [].
Proof.
  intro H. rewrite <- clean_trimmed. unfold strip.
  rewrite lstrip_all_space; [reflexivity|].
  apply forallb_forall. intros c Hc.
  pose proof (clean_no_symbol nd t c Hc) as Hb.
  destruct (clean_adds_only_space nd t c Hc) as [Hin| ->]; [|reflexivity].
  rewrite forallb_forall in H. specialize (H c Hin). rewrite Hb, orb_false_r in H. exact H.
Qed.

Lemma clean_blank_is_empty_witness :
  forallb (fun c => is_space c || is_blocklisted c) (str "  ** # ~~ ") = true
  /\ clean_text_for_tts nd_none (str "  ** # ~~ ") = [].
Proof.
  split; [vm_compute; reflexivity|].
  apply (clean_blank_is_empty nd_none (str "  ** # ~~ ")). vm_compute. reflexivity.
Defined.

(** ** The normalizer: the whitespace of the output *)

Lemma scan_plus_keeps (p : charset) (c : char) (s : text) :
  forall k b, In (Keep c) (scan_go (Rep p 1 None true) k b s) -> p c = false.
Proof.
  induction s as [|d t IH]; intros k b; [destruct k; simpl; tauto|].
  destruct k as [|k]; [|simpl; eauto].
  cbn [scan_go]. rewrite match_here_greedy, run_length_head.
  destruct (p d) eqn:E; cbn [Nat.leb].
  - intros [H|H]; [discriminate|eauto].
  - intros [H|H]; [injection H as <-; exact E|eauto].
Qed.

Lemma spaces_rule_output (s : text) (c : char) :
  In c (re_sub re_spaces (lit [c_space]) s) -> space_or_visible c = true.
Proof.
  unfold re_sub. intro H. apply in_flat_map in H. destruct H as [x [Hx Hc]].
  destruct x as [d|w gs]; cbn [seg_out] in Hc.
  - destruct Hc as [->|[]]. apply scan_plus_keeps in Hx.
    unfold is_space_not_dot in Hx. apply negb_false_iff in Hx.
    unfold space_or_visible. destruct (is_space c) eqn:Es; [|reflexivity].
    cbn [negb orb] in Hx. apply N.eqb_eq in Hx. subst c. discriminate.
  - rewrite expand_lit in Hc. destruct Hc as [<-|[]]. reflexivity.
Qed.

Lemma in_lit (c : char) (l : text) : In (RLit c) (lit l) -> In c l.
Proof.
  unfold lit. intro H. apply in_map_iff in H. destruct H as [d [E Hd]].
  injection E as ->. exact Hd.
Qed.

Lemma visible_literals (c : char) :
  In c [c_space; c_dot; c_bang; c_question] -> space_or_visible c = true.
Proof. intros [<-|[<-|[<-|[<-|[]]]]]; reflexivity. Qed.

Lemma sub_keeps_visible (r : regex) (repl : list ritem) (s : text) :
  (forall c, In (RLit c) repl -> In c [c_space; c_dot; c_bang; c_question]) ->
  (forall c, In c s -> space_or_visible c = true) ->
  forall c, In c (re_sub r repl s) -> space_or_visible c = true.
Proof.
  intros Hrepl Hs c H. apply sub_incl in H. destruct H as [H|H]; [exact (Hs c H)|].
  apply visible_literals, Hrepl, H.
Qed.

Lemma clean_whitespace_is_space (nd : charset) (t : text) (c : char) :
  In c (clean_text_for_tts nd t) -> space_or_visible c = true.
Proof.
  unfold clean_text_for_tts. intro H. apply strip_incl in H. revert c H.
  do 8 (apply sub_keeps_visible;
          [intros c Hc;
           first [ apply in_lit in Hc; simpl in Hc; simpl; tauto
                 | simpl in Hc; simpl;
                   repeat (destruct Hc as [Hc|Hc]; try discriminate;
                           try (injection Hc as <-; tauto)); tauto ]
          |]).
  intros c H. exact (spaces_rule_output _ c H).
Qed.

Lemma spaces2_output_single (n : nat) :
  forall s b, (length s <= n)%nat ->
  single_spaced (flat_map (seg_out (lit [c_space])) (scan_go re_spaces2 0 b s)) = true
  /\ (starts_with_space s = false ->
      starts_with_space (flat_map (seg_out (lit [c_space])) (scan_go re_spaces2 0 b s)) = false).
Proof.
  induction n as [|n IH]; intros s b Hlen.
  - destruct s; [split; reflexivity|simpl in Hlen; lia].
  - destruct s as [|c t]; [split; reflexivity|].
    cbn [scan_go].
    pose proof (match_here_greedy is_space 2 None b (c :: t)) as Hm.
    fold re_spaces2 in Hm. rewrite Hm. clear Hm.
    pose proof (run_length_stop is_space (c :: t)) as Hstop.
    rewrite run_length_head in *.
    destruct (is_space c) eqn:Ec.
    + destruct (run_length is_space None t) as [|m] eqn:Em.
      * cbn [Nat.leb flat_map seg_out app].
        destruct (IH t (c :: b)) as [H1 H2]; [simpl in Hlen; lia|].
        change (skipn 1 (c :: t)) with t in Hstop.
        assert (starts_with_space t = false) as Ht by (destruct t; [reflexivity|exact Hstop]).
        split; [|intro Hs; cbn [starts_with_space] in Hs; rewrite Ec in Hs; discriminate].
        cbn [single_spaced]. rewrite (H2 Ht), H1, andb_false_r. reflexivity.
      * cbn [Nat.leb]. rewrite scan_go_skip.
        cbn [flat_map seg_out]. rewrite expand_lit. cbn [app].
        destruct (IH (skipn (S m) t) (rev (firstn (S m) t) ++ c :: b)) as [H1 H2].
        { rewrite length_skipn. simpl in Hlen. lia. }
        change (skipn (S (S m)) (c :: t)) with (skipn (S m) t) in Hstop.
        assert (starts_with_space (skipn (S m) t) = false) as Ht
          by (destruct (skipn (S m) t); [reflexivity|exact Hstop]).
        split; [|intro Hs; cbn [starts_with_space] in Hs; rewrite Ec in Hs; discriminate].
        cbn [single_spaced]. rewrite (H2 Ht), H1, andb_false_r. reflexivity.
    + cbn [Nat.leb flat_map seg_out app].
      destruct (IH t (c :: b)) as [H1 H2]; [simpl in Hlen; lia|].
      split; [|intros _; exact Ec].
      cbn [single_spaced]. rewrite Ec, H1. reflexivity.
Qed.

Lemma single_spaced_tail (c : char) (t : text) :
  single_spaced (c :: t) = true -> single_spaced t = true.
Proof. cbn [single_spaced]. intro H. apply andb_prop in H. exact (proj2 H). Qed.

Lemma lstrip_single_spaced (s : text) :
  single_spaced s = true -> single_spaced (lstrip s) = true.
Proof.
  induction s as [|c t IH]; [reflexivity|].
  intro H. cbn [lstrip]. destruct (is_space c); [|exact H].
  exact (IH (single_spaced_tail _ _ H)).
Qed.

Lemma rstrip_single_spaced (s : text) :
  single_spaced s = true -> single_spaced (rstrip s) = true.
Proof.
  induction s as [|c t IH]; [reflexivity|].
  intro H. rewrite rstrip_cons. pose proof (IH (single_spaced_tail _ _ H)) as IHt.
  destruct (rstrip t) as [|d r] eqn:E.
  - destruct (is_space c); [reflexivity|]. cbn [single_spaced starts_with_space].
    rewrite andb_false_r. reflexivity.
  - destruct (rstrip_head _ _ _ E) as [t' ->].
    cbn [single_spaced starts_with_space] in H |- *.
    apply andb_prop in H. destruct H as [H _].
    cbn [single_spaced] in IHt. rewrite H. exact IHt.
Qed.

(** The only whitespace in the output of the normalizer is single spaces
    inside the text: no line break, tab or other whitespace character, no two
    spaces in a row, none at either end. *)
Theorem clean_output_single_spaced (nd : charset) (t : text) :
  forallb space_or_visible (clean_text_for_tts nd t) = true
  /\ single_spaced (clean_text_for_tts nd t) = true
  /\ strip (clean_text_for_tts nd t) = clean_text_for_tts nd t.
Proof.
  split; [|split].
  - apply forallb_forall. apply clean_whitespace_is_space.
  - unfold clean_text_for_tts, strip.
    apply rstrip_single_spaced, lstrip_single_spaced.
    exact (proj1 (spaces2_output_single _ _ [] (le_n _))).
  - apply clean_trimmed.
Qed.

(** ** The other handlers *)

Lemma dict_get_in (d : list (text * text)) (k default : text) :
  In (dict_get d k default) (default :: map snd d).
Proof.
  induction d as [|[k' v] d IH]; [left; reflexivity|].
  cbn [dict_get map snd]. destruct (text_eqb k k').
  - right. left. reflexivity.
  - destruct IH as [IH|IH]; [left; exact IH|right; right; exact IH].
Qed.

(** Whatever [language] a request names, or none, the language sent upstream
    with a non-empty text is one of the six codes of [lang_map]; a request
    without [language] is sent as ["en"]. *)
Theorem voice_language_always_supported
        (tts : text -> text -> response) (cfg : config) (req : voice_request) (t : text) :
  credentials_missing cfg = false ->
  req_text req = Some t ->
  t <> [] ->
  (exists lang,
      In lang [str "en"; str "es"; str "fr"; str "zh"; str "ja"; str "ko"]
      /\ generate_voice tts cfg req = tts t lang)
  /\ (req_language req = None -> generate_voice tts cfg req = tts t (str "en")).
Proof.
  intros Hc Ht Hne. unfold generate_voice. rewrite Hc, Ht. cbn [get_default].
  destruct t as [|c t']; [contradiction|]. cbn [nonempty negb].
  split.
  - eexists. split; [|reflexivity].
    destruct (dict_get_in lang_map (get_default (req_language req) (str "EN")) (str "en"))
      as [H|H]; [rewrite <- H; left; reflexivity|exact H].
  - intros ->. reflexivity.
Qed.

Lemma voice_language_always_supported_witness :
  credentials_missing cfg_ok = false
  /\ generate_voice (fun _ lang => Json_error lang 200) cfg_ok
                    (VoiceRequest (Some (str "Hola")) (Some (str "es")))
     = Json_error (str "en") 200
  /\ exists lang,
      In lang [str "en"; str "es"; str "fr"; str "zh"; str "ja"; str "ko"]
      /\ generate_voice (fun _ lang => Json_error lang 200) cfg_ok
                        (VoiceRequest (Some (str "Hola")) (Some (str "es")))
         = Json_error lang 200.
Proof.
  split; [reflexivity|]. split; [reflexivity|].
  exact (proj1 (voice_language_always_supported (fun _ lang => Json_error lang 200) cfg_ok
                  (VoiceRequest (Some (str "Hola")) (Some (str "es"))) (str "Hola")
                  eq_refl eq_refl ltac:(discriminate))).
Defined.

(** The flags of [health_check] tell what the endpoints do with a request
    that lacks its text or message: [configured] decides between 400 and the
    configuration error of the two voice endpoints, [gemini_configured]
    between 400 and the configuration error of the chat endpoint. *)
Theorem health_flags_match_endpoints
        (tts : text -> text -> response)
        (ask_model : text -> list (text * text) -> model_outcome)
        (nd : charset) (cfg : config)
        (lang : option text) (history : list (text * text)) :
  generate_voice tts cfg (VoiceRequest None lang)
  = (if configured (health_check cfg)
     then Json_error (str "Text is required") 400
     else Json_error
            (str "Cloudflare credentials not configured. Please check your .env file.") 500)
  /\ generate_voice_chunked tts cfg (VoiceRequest None lang)
     = (if configured (health_check cfg)
        then Json_error (str "Text is required") 400
        else Json_error (str "Cloudflare credentials not configured.") 500)
  /\ chat_with_gemini ask_model nd cfg (ChatRequest None history)
     = (if gemini_configured (health_check cfg)
        then Json_error (str "Message is required") 400
        else Json_error
               (str "Gemini API key not configured. Please check your .env file.") 500).
Proof.
  unfold generate_voice, generate_voice_chunked, chat_with_gemini, credentials_missing,
    health_check, py_and. cbn [configured gemini_configured].
  destruct (truthy (CLOUDFLARE_ACCOUNT_ID cfg)) eqn:Ea;
    destruct (truthy (CLOUDFLARE_API_TOKEN cfg)) eqn:Et;
    destruct (truthy (GEMINI_API_KEY cfg)) eqn:Eg;
    rewrite ?Ea, ?Et; repeat split; reflexivity.
Qed.

(** Every language [get_voices] advertises has an entry of its own in
    [lang_map], so that it is sent upstream under its own code and not under
    the default, and it has at least one speaker; two advertised languages
    never share an upstream code. *)
Theorem advertised_languages_are_mapped :
  (forall code, In code (map fst voices_languages) ->
     (forall d1 d2, dict_get lang_map code d1 = dict_get lang_map code d2)
     /\ exists speakers, In (code, speakers) voices_speakers /\ speakers <> [])
  /\ (forall c1 c2, In c1 (map fst voices_languages) -> In c2 (map fst voices_languages) ->
        dict_get lang_map c1 [] = dict_get lang_map c2 [] -> c1 = c2)
  /\ map fst lang_map = map fst voices_languages.
Proof.
  split; [|split; [|reflexivity]].
  - intros code H. simpl in H.
    repeat (destruct H as [<-|H]; [split; [reflexivity|eexists; split; [simpl; tauto|discriminate]]|]).
    contradiction.
  - intros c1 c2 H1 H2. simpl in H1, H2.
    repeat (destruct H1 as [<-|H1]);
      try contradiction;
      repeat (destruct H2 as [<-|H2]); try contradiction;
      vm_compute; intro E; try reflexivity; discriminate.
Qed.

Lemma last_n_app (A : Type) (n : nat) (older recent : list A) :
  (n <= length recent)%nat -> last_n n (older ++ recent) = last_n n recent.
Proof.
  intro H. unfold last_n. rewrite length_app, skipn_app.
  replace (length older + length recent - n - length older)%nat
    with (length recent - n)%nat by lia.
  rewrite skipn_all2; [reflexivity|lia].
Qed.

Lemma build_prompt_last_six
      (lower : text -> text) (message : text) (older recent : list (text * text)) :
  (6 <= length recent)%nat ->
  build_prompt lower message (older ++ recent) = build_prompt lower message recent.
Proof.
  intro H. unfold build_prompt.
  destruct recent as [|r recent]; [simpl in H; lia|].
  destruct (older ++ r :: recent) as [|x l] eqn:E; [destruct older; discriminate|].
  rewrite <- E, (last_n_app _ 6 older (r :: recent) H). reflexivity.
Qed.

(** The chat endpoint uses only the last six entries of the history: with
    six entries or more, whatever came before them changes neither the
    prompt nor the answer of the endpoint. *)
Theorem chat_uses_last_six_entries
        (lower : text -> text) (generate : text -> model_outcome)
        (nd : charset) (cfg : config) (message : option text)
        (older recent : list (text * text)) :
  (6 <= length recent)%nat ->
  build_prompt lower (get_default message []) (older ++ recent)
  = build_prompt lower (get_default message []) recent
  /\ chat_with_gemini (ask_with_prompt lower generate) nd cfg
                      (ChatRequest message (older ++ recent))
     = chat_with_gemini (ask_with_prompt lower generate) nd cfg
                        (ChatRequest message recent).
Proof.
  intro H. split; [apply build_prompt_last_six; exact H|].
  unfold chat_with_gemini, ask_with_prompt. cbn [req_message req_history].
  rewrite (build_prompt_last_six lower _ older recent H). reflexivity.
Qed.

Lemma chat_uses_last_six_entries_witness :
  let turn := (str "user", str "hi") in
  let recent := [turn; (str "model", str "Hello!"); turn; turn; turn; turn] in
  (6 <= length recent)%nat
  /\ build_prompt lower_ascii (str "Quiz me") ([(str "user", str "old")] ++ recent)
     = build_prompt lower_ascii (str "Quiz me") recent
  /\ is_infix (str "Assistant: Hello!") (build_prompt lower_ascii (str "Quiz me") recent) = true
  /\ is_infix (str "TEACHING MODE") (build_prompt lower_ascii (str "Quiz me") recent) = true.
Proof.
  cbv zeta. split; [simpl; lia|].
  split; [|split; vm_compute; reflexivity].
  exact (proj1 (chat_uses_last_six_entries lower_ascii (fun _ => Model_raised []) nd_none cfg_ok
                  (Some (str "Quiz me")) [(str "user", str "old")]
                  [(str "user", str "hi"); (str "model", str "Hello!"); (str "user", str "hi");
                   (str "user", str "hi"); (str "user", str "hi"); (str "user", str "hi")]
                  ltac:(simpl; lia))).
Defined.

(** ** The normalizer: no space before a dot *)

Lemma run_length_inside (p : charset) (s : text) :
  forall k, (k < run_length p None s)%nat ->
  match skipn k s with
  | c :: _ => p c = true
  | [] => False
  end.
Proof.
  induction s as [|d t IH]; intros k Hk; [simpl in Hk; lia|].
  rewrite run_length_head in Hk. destruct (p d) eqn:E; [|lia].
  destruct k as [|k]; [exact E|]. cbn [skipn]. apply IH. lia.
Qed.

Lemma space_not_dot (c : char) : is_space c = true -> (c =? c_dot) = false.
Proof.
  intro H. destruct (c =? c_dot) eqn:E; [|reflexivity].
  apply N.eqb_eq in E. subst c. discriminate.
Qed.

Lemma run_dot_after (st : mstate) :
  run (Chr (one c_dot)) st =
  if starts_with_dot (rest st) then [step_char st] else [].
Proof. cbn [run]. unfold starts_with_dot, one. destruct (rest st); reflexivity. Qed.

Lemma space_dot_shorter (b s : text) (ks : list nat) :
  (forall k, In k ks -> (k < run_length is_space None s)%nat) ->
  flat_map (run (Chr (one c_dot))) (map (fun k => advance k (MState b s [])) ks) = [].
Proof.
  induction ks as [|k ks IH]; intro H; [reflexivity|].
  cbn [map flat_map]. rewrite run_dot_after, rest_advance. cbn [rest].
  pose proof (run_length_inside is_space s k (H k (or_introl eq_refl))) as Hk.
  destruct (skipn k s) as [|c r]; [contradiction|].
  cbn [starts_with_dot]. rewrite (space_not_dot c Hk). cbn [app].
  apply IH. intros k' Hk'. apply H. right. exact Hk'.
Qed.

Lemma run_rep_then (p : charset) (lo : nat) (hi : option nat) (g : bool)
      (r2 : regex) (st : mstate) :
  run (Rep p lo hi g @@ r2) st =
  flat_map (run r2)
           (map (fun k => advance k st) (rep_counts lo (run_length p hi (rest st)) g)).
Proof. reflexivity. Qed.

(** The first match of [\s+\.]: the whole whitespace run and the dot after
    it, when there is one. *)
Lemma match_here_space_dot (b s : text) :
  match_here re_space_dot b s =
  if (1 <=? run_length is_space None s)%nat
     && starts_with_dot (skipn (run_length is_space None s) s)
  then Some (S (run_length is_space None s), [])
  else None.
Proof.
  unfold match_here, re_space_dot. rewrite run_rep_then. cbn [rest]. unfold rep_counts.
  pose proof (run_length_le is_space s None) as Hle.
  set (n := run_length is_space None s) in *.
  destruct n as [|m] eqn:En.
  - reflexivity.
  - cbn [Nat.leb andb]. replace (S (S m) - 1)%nat with (S m) by lia.
    rewrite rev_seq_S. cbn [map flat_map].
    rewrite run_dot_after, rest_advance. cbn [rest].
    rewrite (space_dot_shorter b s (rev (seq 1 m))).
    + destruct (starts_with_dot (skipn (S m) s)) eqn:Ed; [|reflexivity].
      cbn [app]. rewrite rest_step_char, rest_advance. cbn [rest].
      unfold step_char. rewrite rest_advance, caps_advance. cbn [rest caps].
      destruct (skipn (S m) s) as [|c r] eqn:Ek; [discriminate|]. cbn [caps skipn].
      assert (length (skipn (S m) s) = S (length r)) as Hl by (rewrite Ek; reflexivity).
      rewrite length_skipn in Hl. do 2 f_equal. lia.
    + intros k Hk. apply in_rev, in_seq in Hk. subst n. lia.
Qed.

Lemma space_dot_output (n : nat) :
  forall s b, (length s <= n)%nat ->
  no_space_before_dot (flat_map (seg_out (lit [c_dot])) (scan_go re_space_dot 0 b s)) = true
  /\ (starts_with_dot (flat_map (seg_out (lit [c_dot])) (scan_go re_space_dot 0 b s)) = true ->
      starts_with_dot (skipn (run_length is_space None s) s) = true).
Proof.
  induction n as [|n IH]; intros s b Hlen.
  - destruct s; [split; [reflexivity|discriminate]|simpl in Hlen; lia].
  - destruct s as [|c t]; [split; [reflexivity|discriminate]|].
    cbn [scan_go]. rewrite match_here_space_dot.
    destruct ((1 <=? run_length is_space None (c :: t))%nat
              && starts_with_dot (skipn (run_length is_space None (c :: t)) (c :: t))) eqn:E.
    + apply andb_prop in E. destruct E as [E1 E2].
      rewrite scan_go_skip. cbn [flat_map seg_out]. rewrite expand_lit. cbn [app].
      destruct (IH (skipn (run_length is_space None (c :: t)) t)
                   (rev (firstn (run_length is_space None (c :: t)) t) ++ c :: b)) as [H1 _].
      { rewrite length_skipn. simpl in Hlen. lia. }
      split; [|intros _; exact E2].
      cbn [no_space_before_dot]. rewrite H1. reflexivity.
    + cbn [flat_map seg_out app].
      destruct (IH t (c :: b)) as [H1 H2]; [simpl in Hlen; lia|].
      rewrite run_length_head in *. destruct (is_space c) eqn:Ec.
      * cbn [Nat.leb andb skipn] in E.
        split.
        -- cbn [no_space_before_dot]. rewrite Ec, H1.
           destruct (starts_with_dot (flat_map _ _)) eqn:Ed; [|reflexivity].
           rewrite (H2 eq_refl) in E. discriminate.
        -- cbn [starts_with_dot]. rewrite (space_not_dot c Ec). discriminate.
      * split.
        -- cbn [no_space_before_dot]. rewrite Ec, H1. reflexivity.
        -- cbn [starts_with_dot skipn]. auto.
Qed.

Lemma no_space_before_dot_tail (c : char) (t : text) :
  no_space_before_dot (c :: t) = true -> no_space_before_dot t = true.
Proof. cbn [no_space_before_dot]. intro H. apply andb_prop in H. exact (proj2 H). Qed.

Lemma no_space_before_dot_skipn (k : nat) :
  forall s, no_space_before_dot s = true -> no_space_before_dot (skipn k s) = true.
Proof.
  induction k as [|k IH]; intros s H; [exact H|].
  destruct s as [|c t]; [reflexivity|]. exact (IH t (no_space_before_dot_tail _ _ H)).
Qed.

Lemma no_dot_after_spaces (s : text) :
  no_space_before_dot s = true ->
  (1 <= run_length is_space None s)%nat ->
  starts_with_dot (skipn (run_length is_space None s) s) = false.
Proof.
  induction s as [|c t IH]; intros H Hn; [reflexivity|].
  rewrite run_length_head in *. destruct (is_space c) eqn:Ec; [|lia].
  cbn [skipn]. cbn [no_space_before_dot] in H. rewrite Ec in H.
  apply andb_prop in H. destruct H as [Hd Ht].
  destruct (run_length is_space None t) as [|m] eqn:Em.
  - cbn [skipn]. destruct (starts_with_dot t); [discriminate|reflexivity].
  - apply IH; [exact Ht|lia].
Qed.

Lemma spaces2_keeps_no_space_before_dot (n : nat) :
  forall s b, (length s <= n)%nat ->
  no_space_before_dot s = true ->
  no_space_before_dot (flat_map (seg_out (lit [c_space])) (scan_go re_spaces2 0 b s)) = true
  /\ (starts_with_dot (flat_map (seg_out (lit [c_space])) (scan_go re_spaces2 0 b s)) = true ->
      starts_with_dot s = true).
Proof.
  induction n as [|n IH]; intros s b Hlen Hs.
  - destruct s; [split; [reflexivity|discriminate]|simpl in Hlen; lia].
  - destruct s as [|c t]; [split; [reflexivity|discriminate]|].
    cbn [scan_go].
    pose proof (match_here_greedy is_space 2 None b (c :: t)) as Hm.
    fold re_spaces2 in Hm. rewrite Hm. clear Hm.
    destruct (2 <=? run_length is_space None (c :: t))%nat eqn:E.
    + apply Nat.leb_le in E.
      pose proof (no_dot_after_spaces (c :: t) Hs ltac:(lia)) as Hnd.
      destruct (run_length is_space None (c :: t)) as [|m] eqn:Em; [lia|].
      rewrite scan_go_skip. cbn [flat_map seg_out]. rewrite expand_lit. cbn [app].
      change (skipn (S m) (c :: t)) with (skipn m t) in Hnd.
      destruct (IH (skipn m t) (rev (firstn m t) ++ c :: b)) as [H1 H2].
      { rewrite length_skipn. simpl in Hlen. lia. }
      { apply no_space_before_dot_skipn. exact (no_space_before_dot_tail _ _ Hs). }
      split; [|discriminate].
      cbn [no_space_before_dot]. rewrite H1.
      destruct (starts_with_dot (flat_map _ _)) eqn:Ed; [|rewrite andb_false_r; reflexivity].
      rewrite (H2 eq_refl) in Hnd. discriminate.
    + assert (match run_length is_space None (c :: t) with
              | 0%nat => Keep c :: scan_go re_spaces2 0 (c :: b) t
              | S _ => Keep c :: scan_go re_spaces2 0 (c :: b) t
              end = Keep c :: scan_go re_spaces2 0 (c :: b) t) as Hk
        by (destruct (run_length is_space None (c :: t)); reflexivity).
      cbn [flat_map seg_out app].
      destruct (IH t (c :: b)) as [H1 H2];
        [simpl in Hlen; lia|exact (no_space_before_dot_tail _ _ Hs)|].
      split; [|intro H; exact H].
      cbn [no_space_before_dot] in Hs |- *. rewrite H1.
      apply andb_prop in Hs. destruct Hs as [Hc _].
      destruct (starts_with_dot (flat_map _ _)) eqn:Ed; [|rewrite andb_false_r; reflexivity].
      rewrite (H2 eq_refl) in Hc. rewrite Hc. reflexivity.
Qed.

Lemma lstrip_no_space_before_dot (s : text) :
  no_space_before_dot s = true -> no_space_before_dot (lstrip s) = true.
Proof.
  induction s as [|c t IH]; [reflexivity|].
  intro H. cbn [lstrip]. destruct (is_space c); [|exact H].
  exact (IH (no_space_before_dot_tail _ _ H)).
Qed.

Lemma rstrip_no_space_before_dot (s : text) :
  no_space_before_dot s = true -> no_space_before_dot (rstrip s) = true.
Proof.
  induction s as [|c t IH]; [reflexivity|].
  intro H. rewrite rstrip_cons. pose proof (IH (no_space_before_dot_tail _ _ H)) as IHt.
  destruct (rstrip t) as [|d r] eqn:E.
  - destruct (is_space c); [reflexivity|]. cbn [no_space_before_dot starts_with_dot].
    rewrite andb_false_r. reflexivity.
  - destruct (rstrip_head _ _ _ E) as [t' ->].
    cbn [no_space_before_dot starts_with_dot] in H |- *.
    apply andb_prop in H. destruct H as [H _].
    cbn [no_space_before_dot] in IHt. rewrite H. exact IHt.
Qed.

(** In the output of the normalizer no dot comes directly after a
    whitespace character. *)
Theorem clean_output_no_space_before_dot (nd : charset) (t : text) :
  no_space_before_dot (clean_text_for_tts nd t) = true.
Proof.
  unfold clean_text_for_tts, strip.
  apply rstrip_no_space_before_dot, lstrip_no_space_before_dot.
  apply (spaces2_keeps_no_space_before_dot _ _ [] (le_n _)).
  exact (proj1 (space_dot_output _ _ [] (le_n _))).
Qed.

Example shape_predicates :
  single_spaced (str "a b") = true /\ single_spaced (str "a  b") = false
  /\ no_space_before_dot (str "a. b") = true /\ no_space_before_dot (str "a .b") = false
  /\ boundary_free false (str "a.b c") = true /\ boundary_free false (str "a. b") = false
  /\ plain_text (str "it's 5 o'clock, - really") = true
  /\ plain_text (str "- item") = false /\ plain_text (str "Hi.") = false.
Proof. repeat split; vm_compute; reflexivity. Qed.

(** ** The normalizer on plain text *)

Lemma run_needs (r : regex) :
  forall st st' p, In st' (run r st) -> In p (needs r) ->
  exists c, In c (rest st) /\ p c = true.
Proof.
  induction r as [q|q lo hi greedy|r1 IH1 r2 IH2|r1 IH1 r2 IH2|r IH| |ps];
    intros st st' p H Hp; cbn [run needs] in *; try contradiction.
  - destruct Hp as [<-|[]]. destruct (rest st) as [|c t]; [contradiction|].
    destruct (q c) eqn:E; [|contradiction]. exists c. split; [left; reflexivity|exact E].
  - destruct lo as [|lo]; [contradiction|]. destruct Hp as [<-|[]].
    apply in_map_iff in H. destruct H as [k [_ Hk]]. apply rep_counts_in in Hk.
    destruct (run_length_prefix q (rest st) hi 1) as [Hall Hlen]; [lia|].
    destruct (rest st) as [|c t]; [simpl in Hlen; lia|].
    simpl in Hall. rewrite andb_true_r in Hall. exists c. split; [left; reflexivity|exact Hall].
  - apply in_flat_map in H. destruct H as [mid [Hm H]].
    apply in_app_or in Hp. destruct Hp as [Hp|Hp]; [exact (IH1 _ _ _ Hm Hp)|].
    destruct (IH2 _ _ _ H Hp) as [c [Hc Hpc]]. exists c. split; [|exact Hpc].
    exact (proj1 (run_rest_caps r1 st mid Hm) c Hc).
  - apply in_map_iff in H. destruct H as [mid [_ Hm]]. exact (IH _ _ _ Hm Hp).
Qed.

Lemma match_needs (r : regex) (b s : text) (p : charset) :
  In p (needs r) -> (forall c, In c s -> p c = false) -> match_here r b s = None.
Proof.
  intros Hp Hs. unfold match_here.
  destruct (run r (MState b s [])) as [|st' l] eqn:E; [reflexivity|].
  destruct (run_needs r (MState b s []) st' p) as [c [Hc Hpc]];
    [rewrite E; left; reflexivity|exact Hp|].
  cbn [rest] in Hc. rewrite (Hs c Hc) in Hpc. discriminate.
Qed.

Lemma out_keeps (repl : list ritem) (s : text) : flat_map (seg_out repl) (map Keep s) = s.
Proof. induction s as [|c t IH]; [reflexivity|]. simpl. f_equal. exact IH. Qed.

Lemma scan_absent (r : regex) (p : charset) (s : text) :
  In p (needs r) -> (forall c, In c s -> p c = false) ->
  forall b, scan_go r 0 b s = map Keep s.
Proof.
  intro Hp. induction s as [|c t IH]; intros Hs b; [reflexivity|].
  cbn [scan_go map]. rewrite (match_needs r b (c :: t) p Hp Hs).
  f_equal. apply IH. intros d Hd. apply Hs. right. exact Hd.
Qed.

(** A rule leaves alone a text without a character its pattern needs. *)
Lemma sub_absent (r : regex) (repl : list ritem) (p : charset) (s : text) :
  In p (needs r) -> (forall c, In c s -> p c = false) -> re_sub r repl s = s.
Proof.
  intros Hp Hs. unfold re_sub, scan. rewrite (scan_absent r p s Hp Hs). apply out_keeps.
Qed.

Lemma plain_excludes (c : char) :
  plain_char c || (c =? c_space) = true ->
  is_blocklisted c = false /\ one c_star c = false /\ one c_backtick c = false
  /\ is_sentence_end c = false /\ one c_dot c = false
  /\ any_of [c_bang] c = false /\ any_of [c_question] c = false
  /\ (c =? c_newline) = false /\ space_or_visible c = true.
Proof.
  intro H. apply orb_prop in H. destruct H as [H|H].
  - unfold plain_char in H. repeat (apply andb_prop in H; destruct H as [H ?]).
    apply negb_true_iff in H. repeat match goal with
                                     | X : negb _ = true |- _ => apply negb_true_iff in X
                                     end.
    assert (forall d, (c =? d) = true -> is_blocklisted d = true -> False) as Hb
      by (intros d E; apply N.eqb_eq in E; subst d; congruence).
    assert (forall d, (c =? d) = true -> is_sentence_end d = true -> False) as He
      by (intros d E; apply N.eqb_eq in E; subst d; congruence).
    assert (forall d, (c =? d) = true -> is_space d = true -> False) as Hs
      by (intros d E; apply N.eqb_eq in E; subst d; congruence).
    unfold one, any_of, existsb, space_or_visible. rewrite H, !orb_false_r.
    repeat split; auto;
      match goal with
      | |- (c =? ?d) = false =>
        destruct (c =? d) eqn:E; [exfalso|reflexivity];
          first [ exact (Hb d E eq_refl) | exact (He d E eq_refl) | exact (Hs d E eq_refl)
                | congruence ]
      end.
  - apply N.eqb_eq in H. subst c. repeat split; reflexivity.
Qed.

Lemma run_length_single (s : text) :
  single_spaced s = true -> (run_length is_space None s <= 1)%nat.
Proof.
  destruct s as [|c t]; [simpl; lia|].
  cbn [single_spaced]. rewrite run_length_head. intro H.
  destruct (is_space c); [|lia].
  apply andb_prop in H. destruct H as [H _]. cbn [andb negb] in H.
  destruct t as [|d t']; [simpl; lia|]. rewrite run_length_head.
  cbn [starts_with_space] in H. apply negb_true_iff in H. rewrite H. lia.
Qed.

Lemma spaces2_rule_plain (s : text) :
  single_spaced s = true -> forall b, scan_go re_spaces2 0 b s = map Keep s.
Proof.
  induction s as [|c t IH]; intros H b; [reflexivity|].
  cbn [scan_go map].
  pose proof (match_here_greedy is_space 2 None b (c :: t)) as Hm.
  fold re_spaces2 in Hm. rewrite Hm.
  pose proof (run_length_single _ H) as Hn.
  assert ((2 <=? run_length is_space None (c :: t))%nat = false) as ->
    by (apply Nat.leb_gt; lia).
  f_equal. exact (IH (single_spaced_tail _ _ H) (c :: b)).
Qed.

Lemma is_space_not_dot_eq (c : char) : is_space_not_dot c = is_space c.
Proof.
  unfold is_space_not_dot. destruct (is_space c) eqn:E; [|reflexivity].
  rewrite (space_not_dot c E). reflexivity.
Qed.

Lemma spaces_rule_plain (s : text) :
  single_spaced s = true ->
  (forall c, In c s -> space_or_visible c = true) ->
  forall b, flat_map (seg_out (lit [c_space])) (scan_go re_spaces 0 b s) = s.
Proof.
  induction s as [|c t IH]; intros H Hv b; [reflexivity|].
  assert (forall b', flat_map (seg_out (lit [c_space])) (scan_go re_spaces 0 b' t) = t) as IHt.
  { apply IH; [exact (single_spaced_tail _ _ H)|]. intros d Hd. apply Hv. right. exact Hd. }
  cbn [scan_go].
  pose proof (match_here_greedy is_space_not_dot 1 None b (c :: t)) as Hm.
  fold re_spaces in Hm. rewrite Hm. rewrite run_length_head, is_space_not_dot_eq.
  destruct (is_space c) eqn:Ec.
  - assert (run_length is_space_not_dot None t = 0%nat) as ->.
    { cbn [single_spaced] in H. rewrite Ec in H. apply andb_prop in H. destruct H as [H _].
      destruct t as [|d t']; [reflexivity|]. rewrite run_length_head, is_space_not_dot_eq.
      cbn [starts_with_space andb] in H. apply negb_true_iff in H.
      rewrite H. reflexivity. }
    cbn [Nat.leb firstn flat_map seg_out]. rewrite expand_lit, IHt. cbn [app].
    pose proof (Hv c (or_introl eq_refl)) as Hc. unfold space_or_visible in Hc.
    rewrite Ec in Hc. cbn [negb orb] in Hc. apply N.eqb_eq in Hc. subst c. reflexivity.
  - cbn [Nat.leb flat_map seg_out app]. rewrite IHt. reflexivity.
Qed.

Lemma match_bol_inside (r : regex) (c0 : char) (b s : text) :
  (c0 =? c_newline) = false -> match_here (Bol @@ r) (c0 :: b) s = None.
Proof. intro H. unfold match_here. cbn [run before]. rewrite H. reflexivity. Qed.

Lemma scan_bol_inside (r : regex) (s : text) :
  (forall c, In c s -> (c =? c_newline) = false) ->
  forall (c0 : char) (b : text), (c0 =? c_newline) = false ->
  scan_go (Bol @@ r) 0 (c0 :: b) s = map Keep s.
Proof.
  induction s as [|c t IH]; intros Hs c0 b H0; [reflexivity|].
  cbn [scan_go map]. rewrite (match_bol_inside r c0 b (c :: t) H0). f_equal.
  apply IH; [intros d Hd; apply Hs; right; exact Hd|apply Hs; left; reflexivity].
Qed.

Lemma run_length_zero (p : charset) (hi : option nat) (s : text) :
  match s with
  | c :: _ => p c = false
  | [] => True
  end -> run_length p hi s = 0%nat.
Proof.
  destruct s as [|c t]; [reflexivity|]. intro H.
  destruct hi as [[|h]|]; simpl; rewrite ?H; reflexivity.
Qed.

Lemma match_bullet_start (t : text) :
  starts_with_space t = false -> bullet_start t = false ->
  match_here re_bullet [] t = None.
Proof.
  intros Hs Hb. unfold match_here, re_bullet.
  change (run (Bol @@ Rep is_space 0 None true @@ Chr is_bullet @@ Rep is_space 1 None true)
              (MState [] t []))
    with (run (Rep is_space 0 None true @@ Chr is_bullet @@ Rep is_space 1 None true)
              (MState [] t []) ++ []).
  rewrite app_nil_r, run_rep_then. cbn [rest].
  rewrite (run_length_zero is_space None t); [|destruct t; [exact I|exact Hs]].
  change (rep_counts 0 0 true) with [0%nat]. cbn [map flat_map advance]. rewrite app_nil_r.
  change (run (Chr is_bullet @@ Rep is_space 1 None true) (MState [] t []))
    with (flat_map (run (Rep is_space 1 None true)) (run (Chr is_bullet) (MState [] t []))).
  cbn [run rest]. destruct t as [|c t']; [reflexivity|].
  cbn [bullet_start] in Hb. destruct (is_bullet c); [|reflexivity].
  cbn [andb] in Hb. cbn [flat_map step_char rest]. rewrite app_nil_r.
  rewrite (run_length_zero is_space None t'); [reflexivity|destruct t'; [exact I|exact Hb]].
Qed.

Lemma bullet_rule_plain (t : text) :
  starts_with_space t = false -> bullet_start t = false ->
  (forall c, In c t -> (c =? c_newline) = false) ->
  scan re_bullet t = map Keep t.
Proof.
  intros Hs Hb Hn. unfold scan. destruct t as [|c t']; [reflexivity|].
  cbn [scan_go map]. rewrite (match_bullet_start _ Hs Hb). f_equal.
  apply (scan_bol_inside _ t');
    [intros d Hd; apply Hn; right; exact Hd|apply Hn; left; reflexivity].
Qed.

Lemma strip_fixed_no_lead (t : text) : strip t = t -> starts_with_space t = false.
Proof.
  intro H. rewrite <- H. unfold strip.
  destruct (rstrip (lstrip t)) as [|d r] eqn:E; [reflexivity|].
  destruct (rstrip_head _ _ _ E) as [t' Ht]. exact (lstrip_head _ _ _ Ht).
Qed.

Lemma rules_identity (rs : list (regex * list ritem)) (t : text) :
  Forall (fun rule => re_sub (fst rule) (snd rule) t = t) rs ->
  fold_left (fun t rule => re_sub (fst rule) (snd rule) t) rs t = t.
Proof.
  induction 1 as [|rule rs Hr _ IH]; [reflexivity|].
  cbn [fold_left]. rewrite Hr. exact IH.
Qed.

Lemma plain_text_fixed (nd : charset) (t : text) :
  plain_text t = true -> clean_text_for_tts nd t = t.
Proof.
  unfold plain_text. intro H.
  repeat (apply andb_prop in H; destruct H as [H ?]).
  match goal with X : negb (bullet_start t) = true |- _ => apply negb_true_iff in X; rename X into Hb end.
  match goal with X : text_eqb _ _ = true |- _ => apply text_eqb_eq in X; rename X into Hs end.
  match goal with X : single_spaced t = true |- _ => rename X into Hsingle end.
  rewrite forallb_forall in H.
  assert (forall p, (forall c, plain_char c || (c =? c_space) = true -> p c = false) ->
          forall c, In c t -> p c = false) as Hex
    by (intros p Hp c Hc; exact (Hp c (H c Hc))).
  rewrite clean_as_rules, rules_identity; [exact Hs|].
  unfold rules. repeat (apply Forall_cons; [cbn [fst snd]|]); try apply Forall_nil.
  - apply (sub_absent _ _ (one c_star)); [simpl; tauto|].
    apply Hex. intros c Hc. apply (plain_excludes c Hc).
  - apply (sub_absent _ _ (one c_star)); [simpl; tauto|].
    apply Hex. intros c Hc. apply (plain_excludes c Hc).
  - apply (sub_absent _ _ (one c_backtick)); [simpl; tauto|].
    apply Hex. intros c Hc. apply (plain_excludes c Hc).
  - unfold re_sub. rewrite bullet_rule_plain; [apply out_keeps| | |].
    + exact (strip_fixed_no_lead t Hs).
    + exact Hb.
    + apply Hex. intros c Hc. apply (plain_excludes c Hc).
  - apply (sub_absent _ _ (one c_dot)); [simpl; tauto|].
    apply Hex. intros c Hc. apply (plain_excludes c Hc).
  - unfold re_sub, scan. apply spaces_rule_plain; [exact Hsingle|].
    intros c Hc. apply (plain_excludes c (H c Hc)).
  - apply (sub_absent _ _ is_sentence_end); [simpl; tauto|].
    apply Hex. intros c Hc. apply (plain_excludes c Hc).
  - apply (sub_absent _ _ (one c_dot)); [simpl; tauto|].
    apply Hex. intros c Hc. apply (plain_excludes c Hc).
  - apply (sub_absent _ _ (one c_dot)); [simpl; tauto|].
    apply Hex. intros c Hc. apply (plain_excludes c Hc).
  - apply (sub_absent _ _ (any_of [c_bang])); [simpl; tauto|].
    apply Hex. intros c Hc. apply (plain_excludes c Hc).
  - apply (sub_absent _ _ (any_of [c_question])); [simpl; tauto|].
    apply Hex. intros c Hc. apply (plain_excludes c Hc).
  - apply (sub_absent _ _ is_blocklisted); [simpl; tauto|].
    apply Hex. intros c Hc. apply (plain_excludes c Hc).
  - apply (sub_absent _ _ (one c_dot)); [simpl; tauto|].
    apply Hex. intros c Hc. apply (plain_excludes c Hc).
  - unfold re_sub, scan. rewrite spaces2_rule_plain; [apply out_keeps|exact Hsingle].
Qed.

(** Plain text passes through the normalizer unchanged: a text of plain
    characters (no whitespace but single inner spaces, no blocklisted symbol,
    no backtick, none of [.!?]) that does not start with a bullet marker. *)
Theorem plain_text_unchanged (nd : charset) (t : text) :
  plain_text t = true -> clean_text_for_tts nd t = t.
Proof. apply plain_text_fixed. Qed.

Lemma plain_text_unchanged_witness :
  plain_text (str "Hello world, it's 5 o'clock - let's go") = true
  /\ clean_text_for_tts nd_none (str "Hello world, it's 5 o'clock - let's go")
     = str "Hello world, it's 5 o'clock - let's go".
Proof.
  split; [vm_compute; reflexivity|].
  apply (plain_text_unchanged nd_none (str "Hello world, it's 5 o'clock - let's go")).
  vm_compute. reflexivity.
Defined.

(** ** The normalizer on emphasis markers *)

Lemma run_length_ge (p : charset) (w x : text) :
  (forall c, In c w -> p c = true) -> (length w <= run_length p None (w ++ x))%nat.
Proof.
  induction w as [|c w IH]; intro H; [simpl; lia|].
  cbn [app]. rewrite run_length_head, (H c (or_introl eq_refl)). cbn [length].
  apply le_n_S, IH. intros d Hd. apply H. right. exact Hd.
Qed.

Lemma rest_close_group (st st' : mstate) : rest (close_group st st') = rest st'.
Proof. reflexivity. Qed.

Lemma skipn_app_inside (k : nat) (w x : text) :
  (k < length w)%nat -> exists c t, skipn k (w ++ x) = c :: t /\ In c w.
Proof.
  revert w. induction k as [|k IH]; intros w H.
  - destruct w as [|c w]; [simpl in H; lia|]. exists c, (w ++ x). split; [reflexivity|left; reflexivity].
  - destruct w as [|d w]; [simpl in H; lia|]. simpl in H.
    destruct (IH w ltac:(lia)) as [c [t [E Hc]]]. exists c, t. split; [exact E|right; exact Hc].
Qed.

Lemma skipn_app_exact (w x : text) : skipn (length w) (w ++ x) = x.
Proof. induction w as [|c w IH]; [reflexivity|exact IH]. Qed.

Lemma firstn_app_exact (w x : text) : firstn (length w) (w ++ x) = w.
Proof. induction w as [|c w IH]; [reflexivity|]. simpl. f_equal. exact IH. Qed.

(** The lazy group [(.+?)] before a closing marker [m]: on [w ++ m ++ suf],
    with [w] free of the marker character and of newlines, the first match
    takes exactly [w]. *)
Lemma lazy_group_first (cl : regex) (q : charset) (m : text) (st : mstate) (w suf : text) :
  (forall st0 c t, rest st0 = c :: t -> q c = false -> run cl st0 = []) ->
  (forall st0 x, rest st0 = m ++ x -> run cl st0 = [advance (length m) st0]) ->
  rest st = w ++ m ++ suf ->
  w <> [] ->
  (forall c, In c w -> q c = false /\ is_dot_any c = true) ->
  exists l,
    run (Grp (Rep is_dot_any 1 None false) @@ cl) st
    = advance (length m) (close_group st (advance (length w) st)) :: l.
Proof.
  intros Hfail Hok Hrest Hne Hw.
  cbn [run]. unfold rep_counts. rewrite Hrest.
  pose proof (run_length_ge is_dot_any w (m ++ suf) (fun c Hc => proj2 (Hw c Hc))) as Hn.
  set (n := run_length is_dot_any None (w ++ m ++ suf)) in *.
  assert (1 <= length w)%nat as H1 by (destruct w; [contradiction|simpl; lia]).
  replace (S n - 1)%nat with ((length w - 1) + S (n - length w))%nat by lia.
  rewrite seq_app. replace (1 + (length w - 1))%nat with (length w) by lia.
  cbn [seq]. rewrite !map_app, flat_map_app. cbn [map flat_map].
  assert (flat_map (run cl)
            (map (close_group st) (map (fun k => advance k st) (seq 1 (length w - 1)))) = [])
    as ->.
  { assert (forall k, In k (seq 1 (length w - 1)) -> (k < length w)%nat) as Hk
      by (intros k Hk; apply in_seq in Hk; lia).
    induction (seq 1 (length w - 1)) as [|k ks IHk]; [reflexivity|].
    cbn [map flat_map].
    destruct (skipn_app_inside k w (m ++ suf) (Hk k (or_introl eq_refl))) as [c [t [E Hc]]].
    rewrite (Hfail _ c t); [|rewrite rest_close_group, rest_advance, Hrest; exact E
                            |exact (proj1 (Hw c Hc))].
    apply IHk. intros k' Hk'. apply Hk. right. exact Hk'. }
  cbn [app]. rewrite (Hok _ suf);
    [|rewrite rest_close_group, rest_advance, Hrest; apply skipn_app_exact].
  eexists. reflexivity.
Qed.

Lemma head_fails (p : charset) (r : regex) (b : text) (c : char) (t : text) :
  p c = false -> match_here (Chr p @@ r) b (c :: t) = None.
Proof. intro H. unfold match_here. cbn [run rest]. rewrite H. reflexivity. Qed.

Lemma scan_keep_prefix (r : regex) (pre : text) :
  (forall b c t, In c pre -> match_here r b (c :: t) = None) ->
  forall b s, scan_go r 0 b (pre ++ s) = map Keep pre ++ scan_go r 0 (rev pre ++ b) s.
Proof.
  induction pre as [|c pre IH]; intros H b s; [reflexivity|].
  cbn [app scan_go map rev]. rewrite (H b c (pre ++ s) (or_introl eq_refl)).
  rewrite <- app_assoc. cbn [app]. f_equal.
  apply IH. intros b' d t Hd. apply H. right. exact Hd.
Qed.

(** What a rule [marker (.+?) marker -> \1] does to one marked phrase. *)
Lemma wrapped_sub (r : regex) (q : charset) (m : text) (pre w suf : text) :
  (forall b c t, q c = false -> match_here r b (c :: t) = None) ->
  (forall b x, match_here r b (m ++ w ++ m ++ x)
               = Some ((length m + length w + length m)%nat, [w])) ->
  In q (needs r) ->
  m <> [] ->
  (forall c, In c pre -> q c = false) ->
  (forall c, In c suf -> q c = false) ->
  re_sub r group1 (pre ++ m ++ w ++ m ++ suf) = pre ++ w ++ suf.
Proof.
  intros Hhead Hhit Hneeds Hm Hpre Hsuf. unfold re_sub, scan.
  rewrite scan_keep_prefix; [|intros b c t Hc; apply Hhead, Hpre, Hc].
  rewrite flat_map_app, out_keeps. f_equal.
  destruct (m ++ w ++ m ++ suf) as [|c t] eqn:E; [destruct m; [contradiction|discriminate]|].
  cbn [scan_go]. rewrite <- E, Hhit.
  destruct (length m + length w + length m)%nat as [|k] eqn:Ek;
    [destruct m; [contradiction|simpl in Ek; lia]|].
  rewrite scan_go_skip. cbn [flat_map seg_out]. unfold group1, expand.
  cbn [flat_map pred nth]. rewrite app_nil_r. f_equal.
  assert (skipn k t = suf) as ->.
  { change (skipn k t) with (skipn (S k) (c :: t)). rewrite <- E, <- Ek.
    replace (m ++ w ++ m ++ suf) with ((m ++ w ++ m) ++ suf)
      by (rewrite <- !app_assoc; reflexivity).
    replace (length m + length w + length m)%nat with (length (m ++ w ++ m))
      by (rewrite !length_app; lia).
    apply skipn_app_exact. }
  rewrite (scan_absent r q suf Hneeds Hsuf). apply out_keeps.
Qed.

Lemma firstn_consumed (w y : text) :
  firstn (length (w ++ y) - (length (w ++ y) - length w)) (w ++ y) = w.
Proof.
  replace (length (w ++ y) - (length (w ++ y) - length w))%nat with (length w)
    by (rewrite length_app; lia).
  apply firstn_app_exact.
Qed.

Lemma length_rest_advance (k : nat) (st : mstate) :
  length (rest (advance k st)) = (length (rest st) - k)%nat.
Proof. rewrite rest_advance. apply length_skipn. Qed.

Lemma match_first (r : regex) (b s : text) (st' : mstate) (l : list mstate) :
  run r (MState b s []) = st' :: l ->
  match_here r b s = Some ((length s - length (rest st'))%nat, caps st').
Proof. intro H. unfold match_here. rewrite H. reflexivity. Qed.

Lemma one_refl (x : char) : one x x = true.
Proof. unfold one. apply N.eqb_refl. Qed.

Lemma close_marker_fail (x : char) (st0 : mstate) (c : char) (t : text) :
  rest st0 = c :: t -> one x c = false -> run (Chr (one x)) st0 = [].
Proof. intros H Hc. cbn [run]. rewrite H, Hc. reflexivity. Qed.

Lemma close_marker_ok (x : char) (st0 : mstate) (y : text) :
  rest st0 = [x] ++ y -> run (Chr (one x)) st0 = [advance (length [x]) st0].
Proof.
  intro H. cbn [run]. rewrite H. cbn [app]. rewrite one_refl. reflexivity.
Qed.

Lemma close_pair_fail (x : char) (st0 : mstate) (c : char) (t : text) :
  rest st0 = c :: t -> one x c = false -> run (Chr (one x) @@ Chr (one x)) st0 = [].
Proof. intros H Hc. cbn [run]. rewrite H, Hc. reflexivity. Qed.

Lemma close_pair_ok (x : char) (st0 : mstate) (y : text) :
  rest st0 = [x; x] ++ y ->
  run (Chr (one x) @@ Chr (one x)) st0 = [advance (length [x; x]) st0].
Proof.
  intro H. destruct st0 as [b0 s0 g0]. cbn [rest] in H. subst s0.
  cbn [run rest app step_char flat_map before caps]. rewrite one_refl.
  cbn [flat_map rest]. rewrite one_refl. reflexivity.
Qed.

Lemma match_single_marker (x : char) (b w suf : text) :
  w <> [] ->
  (forall c, In c w -> one x c = false /\ is_dot_any c = true) ->
  match_here (Chr (one x) @@ Grp (Rep is_dot_any 1 None false) @@ Chr (one x))
             b ([x] ++ w ++ [x] ++ suf)
  = Some ((length [x] + length w + length [x])%nat, [w]).
Proof.
  intros Hne Hw.
  destruct (lazy_group_first (Chr (one x)) (one x) [x]
              (MState (x :: b) (w ++ [x] ++ suf) []) w suf
              (close_marker_fail x) (close_marker_ok x) eq_refl Hne Hw) as [l Hl].
  assert (run (Chr (one x) @@ Grp (Rep is_dot_any 1 None false) @@ Chr (one x))
              (MState b ([x] ++ w ++ [x] ++ suf) [])
          = advance (length [x])
              (close_group (MState (x :: b) (w ++ [x] ++ suf) [])
                 (advance (length w) (MState (x :: b) (w ++ [x] ++ suf) []))) :: l) as Hrun.
  { change (run (Chr (one x) @@ Grp (Rep is_dot_any 1 None false) @@ Chr (one x))
                (MState b ([x] ++ w ++ [x] ++ suf) []))
      with (flat_map (run (Grp (Rep is_dot_any 1 None false) @@ Chr (one x)))
                     (if one x x then [MState (x :: b) (w ++ [x] ++ suf) []] else [])).
    rewrite one_refl. cbn [flat_map]. rewrite app_nil_r. exact Hl. }
  rewrite (match_first _ _ _ _ _ Hrun). f_equal. f_equal.
  - rewrite length_rest_advance, rest_close_group, length_rest_advance. cbn [rest].
    rewrite !length_app. cbn [length]. lia.
  - rewrite caps_advance. cbn [close_group caps].
    rewrite caps_advance, length_rest_advance. cbn [rest caps app].
    rewrite firstn_consumed. reflexivity.
Qed.

Lemma match_bold_marker (b w suf : text) :
  w <> [] ->
  (forall c, In c w -> one c_star c = false /\ is_dot_any c = true) ->
  match_here re_bold b ([c_star; c_star] ++ w ++ [c_star; c_star] ++ suf)
  = Some ((length [c_star; c_star] + length w + length [c_star; c_star])%nat, [w]).
Proof.
  intros Hne Hw.
  destruct (lazy_group_first (Chr (one c_star) @@ Chr (one c_star)) (one c_star)
              [c_star; c_star]
              (MState (c_star :: c_star :: b) (w ++ [c_star; c_star] ++ suf) []) w suf
              (close_pair_fail c_star) (close_pair_ok c_star) eq_refl Hne Hw) as [l Hl].
  assert (run re_bold (MState b ([c_star; c_star] ++ w ++ [c_star; c_star] ++ suf) [])
          = advance (length [c_star; c_star])
              (close_group (MState (c_star :: c_star :: b) (w ++ [c_star; c_star] ++ suf) [])
                 (advance (length w)
                    (MState (c_star :: c_star :: b) (w ++ [c_star; c_star] ++ suf) []))) :: l)
    as Hrun.
  { change (run re_bold (MState b ([c_star; c_star] ++ w ++ [c_star; c_star] ++ suf) []))
      with (flat_map (run (Grp (Rep is_dot_any 1 None false)
                           @@ Chr (one c_star) @@ Chr (one c_star)))
                     [MState (c_star :: c_star :: b) (w ++ [c_star; c_star] ++ suf) []]
              ++ []).
    cbn [flat_map]. rewrite !app_nil_r. exact Hl. }
  rewrite (match_first _ _ _ _ _ Hrun). f_equal. f_equal.
  - rewrite length_rest_advance, rest_close_group, length_rest_advance. cbn [rest].
    rewrite !length_app. cbn [length]. lia.
  - rewrite caps_advance. cbn [close_group caps].
    rewrite caps_advance, length_rest_advance. cbn [rest caps app].
    rewrite firstn_consumed. reflexivity.
Qed.

Lemma run_chr_then (p : charset) (r : regex) (st : mstate) :
  run (Chr p @@ r) st =
  match rest st with
  | c :: _ => if p c then run r (step_char st) else []
  | [] => []
  end.
Proof.
  cbn [run]. destruct (rest st) as [|c t]; [reflexivity|].
  destruct (p c); cbn [flat_map]; [apply app_nil_r|reflexivity].
Qed.

Lemma match_bold_none (b : text) (c : char) (t : text) :
  negb ((c =? c_star) && match t with d :: _ => d =? c_star | [] => false end) = true ->
  match_here re_bold b (c :: t) = None.
Proof.
  intro H. unfold match_here, re_bold. rewrite run_chr_then. cbn [rest].
  unfold one at 1. destruct (c =? c_star); [|reflexivity].
  rewrite run_chr_then. cbn [step_char rest]. destruct t as [|d t']; [reflexivity|].
  cbn [andb negb] in H. apply negb_true_iff in H. unfold one at 1. rewrite H. reflexivity.
Qed.

Lemma scan_star_pair_free (s : text) :
  star_pair_free s = true -> forall b, scan_go re_bold 0 b s = map Keep s.
Proof.
  induction s as [|c t IH]; intros H b; [reflexivity|].
  cbn [star_pair_free] in H. apply andb_prop in H. destruct H as [H1 H2].
  cbn [scan_go map]. rewrite (match_bold_none b c t H1). f_equal. exact (IH H2 (c :: b)).
Qed.

Lemma star_pair_free_prefix (pre x : text) :
  (forall c, In c pre -> one c_star c = false) ->
  star_pair_free (pre ++ x) = star_pair_free x.
Proof.
  induction pre as [|c pre IH]; intro H; [reflexivity|].
  cbn [app star_pair_free]. pose proof (H c (or_introl eq_refl)) as Hc. unfold one in Hc.
  rewrite Hc. cbn [andb negb]. apply IH. intros d Hd. apply H. right. exact Hd.
Qed.

Lemma star_pair_free_star (x : text) :
  match x with d :: _ => d =? c_star | [] => false end = false ->
  star_pair_free (c_star :: x) = star_pair_free x.
Proof. intro H. cbn [star_pair_free]. rewrite H, andb_false_r. reflexivity. Qed.

Lemma head_not_star (w x : text) :
  (forall c, In c w -> one c_star c = false) ->
  match x with d :: _ => d =? c_star | [] => false end = false ->
  match w ++ x with d :: _ => d =? c_star | [] => false end = false.
Proof.
  intros Hw Hx. destruct w as [|d w']; [exact Hx|]. exact (Hw d (or_introl eq_refl)).
Qed.

Lemma star_pair_free_italic (pre w suf : text) :
  w <> [] ->
  (forall c, In c (pre ++ w ++ suf) -> one c_star c = false) ->
  star_pair_free (pre ++ [c_star] ++ w ++ [c_star] ++ suf) = true.
Proof.
  intros Hne H.
  assert (forall c, In c pre -> one c_star c = false) as Hpre
    by (intros c Hc; apply H, in_or_app; left; exact Hc).
  assert (forall c, In c w -> one c_star c = false) as Hw
    by (intros c Hc; apply H, in_or_app; right; apply in_or_app; left; exact Hc).
  assert (forall c, In c suf -> one c_star c = false) as Hsuf
    by (intros c Hc; apply H, in_or_app; right; apply in_or_app; right; exact Hc).
  rewrite (star_pair_free_prefix pre _ Hpre).
  change ([c_star] ++ w ++ [c_star] ++ suf) with (c_star :: w ++ c_star :: suf).
  rewrite star_pair_free_star.
  - rewrite (star_pair_free_prefix w _ Hw), star_pair_free_star.
    + rewrite <- (app_nil_r suf). exact (star_pair_free_prefix suf [] Hsuf).
    + rewrite <- (app_nil_r suf). apply head_not_star; [exact Hsuf|reflexivity].
  - destruct w as [|d w']; [contradiction|]. exact (Hw d (or_introl eq_refl)).
Qed.

Lemma plain_text_chars (t : text) (c : char) :
  plain_text t = true -> In c t ->
  one c_star c = false /\ one c_backtick c = false /\ is_dot_any c = true.
Proof.
  unfold plain_text. intros H Hc.
  repeat (apply andb_prop in H; destruct H as [H ?]).
  rewrite forallb_forall in H.
  destruct (plain_excludes c (H c Hc)) as [_ [A [B [_ [_ [_ [_ [N _]]]]]]]].
  unfold is_dot_any. rewrite N. auto.
Qed.

(** A phrase between matched emphasis markers loses its markers: when the
    text without the markers is plain text, the normalizer returns exactly
    that text, for bold [**phrase**], italic [*phrase*] and code
    [`phrase`]. *)
Theorem emphasis_markers_removed (nd : charset) (pre w suf : text) :
  plain_text (pre ++ w ++ suf) = true ->
  w <> [] ->
  clean_text_for_tts nd (pre ++ [c_star; c_star] ++ w ++ [c_star; c_star] ++ suf)
  = pre ++ w ++ suf
  /\ clean_text_for_tts nd (pre ++ [c_star] ++ w ++ [c_star] ++ suf) = pre ++ w ++ suf
  /\ clean_text_for_tts nd (pre ++ [c_backtick] ++ w ++ [c_backtick] ++ suf) = pre ++ w ++ suf.
Proof.
  intros Hp Hne.
  pose proof (plain_text_fixed nd _ Hp) as Hfix.
  assert (forall c, In c (pre ++ w ++ suf) ->
          one c_star c = false /\ one c_backtick c = false /\ is_dot_any c = true) as Hall
    by (intros c Hc; exact (plain_text_chars _ c Hp Hc)).
  assert (forall c, In c pre -> In c (pre ++ w ++ suf)) as Ipre
    by (intros c Hc; apply in_or_app; left; exact Hc).
  assert (forall c, In c w -> In c (pre ++ w ++ suf)) as Iw
    by (intros c Hc; apply in_or_app; right; apply in_or_app; left; exact Hc).
  assert (forall c, In c suf -> In c (pre ++ w ++ suf)) as Isuf
    by (intros c Hc; apply in_or_app; right; apply in_or_app; right; exact Hc).
  assert (re_sub re_bold group1 (pre ++ w ++ suf) = pre ++ w ++ suf) as Fb
    by (apply (sub_absent _ _ (one c_star)); [simpl; tauto|intros c Hc; apply (Hall c Hc)]).
  assert (re_sub re_italic group1 (pre ++ w ++ suf) = pre ++ w ++ suf) as Fi
    by (apply (sub_absent _ _ (one c_star)); [simpl; tauto|intros c Hc; apply (Hall c Hc)]).
  assert (re_sub re_code group1 (pre ++ w ++ suf) = pre ++ w ++ suf) as Fc
    by (apply (sub_absent _ _ (one c_backtick)); [simpl; tauto|intros c Hc; apply (Hall c Hc)]).
  unfold clean_text_for_tts in *. cbv zeta in *.
  rewrite Fb, Fi, Fc in Hfix.
  split; [|split].
  - rewrite (wrapped_sub re_bold (one c_star) [c_star; c_star] pre w suf).
    + rewrite Fi, Fc. exact Hfix.
    + intros b c t Hc. apply head_fails. exact Hc.
    + intros b x. apply match_bold_marker; [exact Hne|].
      intros c Hc. destruct (Hall c (Iw c Hc)) as [A [_ D]]. auto.
    + simpl. tauto.
    + discriminate.
    + intros c Hc. apply (Hall c (Ipre c Hc)).
    + intros c Hc. apply (Hall c (Isuf c Hc)).
  - assert (re_sub re_bold group1 (pre ++ [c_star] ++ w ++ [c_star] ++ suf)
            = pre ++ [c_star] ++ w ++ [c_star] ++ suf) as ->.
    { unfold re_sub, scan. rewrite scan_star_pair_free; [apply out_keeps|].
      apply star_pair_free_italic; [exact Hne|intros c Hc; apply (Hall c Hc)]. }
    rewrite (wrapped_sub re_italic (one c_star) [c_star] pre w suf).
    + rewrite Fc. exact Hfix.
    + intros b c t Hc. apply head_fails. exact Hc.
    + intros b x. apply match_single_marker; [exact Hne|].
      intros c Hc. destruct (Hall c (Iw c Hc)) as [A [_ D]]. auto.
    + simpl. tauto.
    + discriminate.
    + intros c Hc. apply (Hall c (Ipre c Hc)).
    + intros c Hc. apply (Hall c (Isuf c Hc)).
  - assert (forall c, In c (pre ++ [c_backtick] ++ w ++ [c_backtick] ++ suf) ->
            one c_star c = false) as Hns.
    { intros c Hc. repeat (apply in_app_or in Hc; destruct Hc as [Hc|Hc]).
      - apply (Hall c (Ipre c Hc)).
      - destruct Hc as [<-|[]]. reflexivity.
      - apply (Hall c (Iw c Hc)).
      - destruct Hc as [<-|[]]. reflexivity.
      - apply (Hall c (Isuf c Hc)). }
    rewrite (sub_absent re_bold group1 (one c_star) _ ltac:(simpl; tauto) Hns).
    rewrite (sub_absent re_italic group1 (one c_star) _ ltac:(simpl; tauto) Hns).
    rewrite (wrapped_sub re_code (one c_backtick) [c_backtick] pre w suf).
    + exact Hfix.
    + intros b c t Hc. apply head_fails. exact Hc.
    + intros b x. apply match_single_marker; [exact Hne|].
      intros c Hc. destruct (Hall c (Iw c Hc)) as [_ [B D]]. auto.
    + simpl. tauto.
    + discriminate.
    + intros c Hc. apply (Hall c (Ipre c Hc)).
    + intros c Hc. apply (Hall c (Isuf c Hc)).
Qed.

Lemma emphasis_markers_removed_witness :
  plain_text (str "Say " ++ str "hello there" ++ str " now") = true
  /\ clean_text_for_tts nd_none (str "Say **hello there** now") = str "Say hello there now"
  /\ clean_text_for_tts nd_none (str "Say *hello there* now") = str "Say hello there now"
  /\ clean_text_for_tts nd_none (str "Say `hello there` now") = str "Say hello there now".
Proof.
  split; [vm_compute; reflexivity|].
  exact (emphasis_markers_removed nd_none (str "Say ") (str "hello there") (str " now")
           ltac:(vm_compute; reflexivity) ltac:(discriminate)).
Defined.

(** ** The normalizer on list markers *)

Lemma run_bol_start (r : regex) (s : text) (gs : list text) :
  run (Bol @@ r) (MState [] s gs) = run r (MState [] s gs).
Proof. cbn [run before flat_map]. apply app_nil_r. Qed.

Lemma run_rep_zero_then (p : charset) (r : regex) (st : mstate) :
  match rest st with
  | c :: _ => p c = false
  | [] => True
  end ->
  run (Rep p 0 None true @@ r) st = run r st.
Proof.
  intro H. rewrite run_rep_then, (run_length_zero p None (rest st) H).
  change (rep_counts 0 0 true) with [0%nat]. cbn [map flat_map advance]. apply app_nil_r.
Qed.

Lemma run_plus_exact (p : charset) (st : mstate) (w x : text) :
  rest st = w ++ x ->
  w <> [] ->
  (forall c, In c w -> p c = true) ->
  match x with
  | c :: _ => p c = false
  | [] => True
  end ->
  exists l, map (fun k => advance k st) (rep_counts 1 (run_length p None (rest st)) true)
            = advance (length w) st :: l.
Proof.
  intros Hrest Hne Hw Hx.
  assert (run_length p None (w ++ x) = length w) as Hn.
  { clear Hne Hrest. induction w as [|c w IH]; [exact (run_length_zero p None x Hx)|].
    cbn [app]. rewrite run_length_head, (Hw c (or_introl eq_refl)). cbn [length]. f_equal.
    apply IH. intros d Hd. apply Hw. right. exact Hd. }
  rewrite Hrest, Hn. unfold rep_counts.
  destruct (length w) as [|m] eqn:E; [destruct w; [contradiction|discriminate]|].
  replace (S (S m) - 1)%nat with (S m) by lia. rewrite rev_seq_S. cbn [map].
  eexists. reflexivity.
Qed.

Lemma plain_not_space_head (p : text) :
  plain_text p = true ->
  match p with
  | c :: _ => is_space c = false
  | [] => True
  end.
Proof.
  unfold plain_text. intro H. repeat (apply andb_prop in H; destruct H as [H ?]).
  match goal with X : text_eqb _ _ = true |- _ => apply text_eqb_eq in X; rename X into Hs end.
  pose proof (strip_fixed_no_lead p Hs) as Hl. destruct p; [exact I|exact Hl].
Qed.

Lemma plain_no_newline (p : text) (c : char) :
  plain_text p = true -> In c p -> (c =? c_newline) = false.
Proof.
  intros H Hc. destruct (plain_text_chars p c H Hc) as [_ [_ D]].
  unfold is_dot_any in D. apply negb_true_iff in D. exact D.
Qed.

Lemma match_bullet_item (b0 : char) (p : text) :
  is_bullet b0 = true -> is_space b0 = false ->
  match p with c :: _ => is_space c = false | [] => True end ->
  match_here re_bullet [] (b0 :: c_space :: p) = Some (2%nat, []).
Proof.
  intros Hb Hs Hp. unfold re_bullet.
  destruct (run_plus_exact is_space (MState [b0] (c_space :: p) []) [c_space] p eq_refl
              ltac:(discriminate)) as [l Hl].
  { intros c [<-|[]]. reflexivity. }
  { exact Hp. }
  assert (run (Bol @@ Rep is_space 0 None true @@ Chr is_bullet @@ Rep is_space 1 None true)
              (MState [] (b0 :: c_space :: p) [])
          = advance 1 (MState [b0] (c_space :: p) []) :: l) as Hrun.
  { rewrite run_bol_start, run_rep_zero_then; [|exact Hs].
    rewrite run_chr_then. cbn [rest step_char before caps]. rewrite Hb.
    cbn [run]. exact Hl. }
  rewrite (match_first _ _ _ _ _ Hrun). cbn [advance step_char rest caps length].
  do 2 f_equal. lia.
Qed.

Lemma digit_facts (nd : charset) (c : char) :
  ascii_digit c = true ->
  is_decimal nd c = true /\ is_space c = false /\ is_bullet c = false
  /\ one c_star c = false /\ one c_backtick c = false /\ (c =? c_newline) = false.
Proof.
  unfold ascii_digit. intro H. apply andb_prop in H. destruct H as [H1 H2].
  apply N.leb_le in H1. apply N.leb_le in H2.
  assert (c = 48 \/ c = 49 \/ c = 50 \/ c = 51 \/ c = 52 \/ c = 53 \/ c = 54 \/ c = 55
          \/ c = 56 \/ c = 57) as Hc by lia.
  repeat (destruct Hc as [->|Hc]); try subst c; repeat split; reflexivity.
Qed.

Lemma match_ordinal_item (nd : charset) (ds p : text) :
  ds <> [] -> forallb ascii_digit ds = true ->
  match p with c :: _ => is_space c = false | [] => True end ->
  match_here (re_ordinal nd) [] (ds ++ [c_dot; c_space] ++ p)
  = Some ((length ds + 2)%nat, []).
Proof.
  intros Hne Hds Hp. unfold re_ordinal. rewrite forallb_forall in Hds.
  set (st0 := MState [] (ds ++ [c_dot; c_space] ++ p) []).
  set (st1 := advance (length ds) st0).
  set (st2 := step_char st1).
  assert (rest st1 = [c_dot; c_space] ++ p) as R1
    by (unfold st1; rewrite rest_advance; apply skipn_app_exact).
  assert (rest st2 = [c_space] ++ p) as R2
    by (unfold st2; rewrite rest_step_char, R1; reflexivity).
  destruct (run_plus_exact (is_decimal nd) st0 ds ([c_dot; c_space] ++ p) eq_refl Hne)
    as [l Hl].
  { intros c Hc. apply (digit_facts nd c (Hds c Hc)). }
  { reflexivity. }
  destruct (run_plus_exact is_space st2 [c_space] p R2 ltac:(discriminate)) as [l2 Hl2].
  { intros c [<-|[]]. reflexivity. }
  { exact Hp. }
  fold st1 in Hl.
  assert (exists l',
            run (Bol @@ Rep is_space 0 None true @@ Rep (is_decimal nd) 1 None true
                 @@ Chr (one c_dot) @@ Rep is_space 1 None true) st0
            = advance 1 st2 :: l') as [l' Hrun].
  { unfold st0 at 1. rewrite run_bol_start. fold st0. rewrite run_rep_zero_then.
    - rewrite run_rep_then, Hl. cbn [flat_map]. rewrite run_chr_then, R1.
      cbn [app]. rewrite one_refl. fold st2.
      change (run (Rep is_space 1 None true) st2)
        with (map (fun k => advance k st2)
                  (rep_counts 1 (run_length is_space None (rest st2)) true)).
      rewrite Hl2. cbn [app]. eexists. reflexivity.
    - cbn [rest st0]. destruct ds as [|d ds']; [contradiction|].
      apply (digit_facts nd d (Hds d (or_introl eq_refl))). }
  rewrite (match_first _ _ _ _ _ Hrun).
  assert (rest (advance 1 st2) = p) as R3 by (rewrite rest_advance, R2; reflexivity).
  assert (caps (advance 1 st2) = []) as C3.
  { rewrite caps_advance. unfold st2, st1.
    destruct (advance (length ds) st0) as [b0 [|c0 t0] g0] eqn:E;
      cbn [step_char rest caps];
      pose proof (caps_advance (length ds) st0) as Hc; rewrite E in Hc; exact Hc. }
  rewrite R3, C3. do 2 f_equal. rewrite !length_app. cbn [length]. lia.
Qed.

(** A rule [^... -> ''] whose match at the start of the text is [w]: the
    rest of the line stays. *)
Lemma sub_delete_prefix (r : regex) (w p : text) (n : nat) (gs : list text)
      (c0 : char) (w' : text) :
  match_here (Bol @@ r) [] (w ++ p) = Some (S n, gs) ->
  length w = S n ->
  rev w = c0 :: w' ->
  (c0 =? c_newline) = false ->
  (forall c, In c p -> (c =? c_newline) = false) ->
  re_sub (Bol @@ r) [] (w ++ p) = p.
Proof.
  intros Hm Hlen Hrev Hc0 Hp. unfold re_sub, scan.
  destruct (w ++ p) as [|c t] eqn:E; [destruct w; discriminate|].
  cbn [scan_go]. rewrite Hm, scan_go_skip. cbn [flat_map seg_out expand app].
  assert (rev (firstn n t) ++ [c] = rev w) as Eb.
  { change (rev (firstn n t) ++ [c]) with (rev (firstn (S n) (c :: t))).
    rewrite <- E, <- Hlen, firstn_app_exact. reflexivity. }
  assert (skipn n t = p) as Es.
  { change (skipn n t) with (skipn (S n) (c :: t)).
    rewrite <- E, <- Hlen. apply skipn_app_exact. }
  rewrite Eb, Hrev, Es, (scan_bol_inside r p Hp c0 w' Hc0). apply out_keeps.
Qed.

(** A list marker in front of plain text is removed with the space after
    it: a bullet [-] or [•], or an ordinal made of the digits [0-9] and a
    dot. *)
Theorem list_marker_removed (nd : charset) (p : text) :
  plain_text p = true ->
  (forall b0, b0 = c_hyphen \/ b0 = c_bullet ->
     clean_text_for_tts nd (b0 :: c_space :: p) = p)
  /\ (forall ds, ds <> [] -> forallb ascii_digit ds = true ->
        clean_text_for_tts nd (ds ++ [c_dot; c_space] ++ p) = p).
Proof.
  intro Hp.
  pose proof (plain_text_fixed nd p Hp) as Hfix.
  pose proof (plain_not_space_head p Hp) as Hhead.
  assert (forall c, In c p -> (c =? c_newline) = false) as Hnl
    by (intros c Hc; exact (plain_no_newline p c Hp Hc)).
  assert (forall c, In c p -> one c_star c = false /\ one c_backtick c = false) as Hall
    by (intros c Hc; destruct (plain_text_chars p c Hp Hc) as [A [B _]]; auto).
  assert (re_sub re_bold group1 p = p) as Fb
    by (apply (sub_absent _ _ (one c_star)); [simpl; tauto|intros c Hc; apply (Hall c Hc)]).
  assert (re_sub re_italic group1 p = p) as Fi
    by (apply (sub_absent _ _ (one c_star)); [simpl; tauto|intros c Hc; apply (Hall c Hc)]).
  assert (re_sub re_code group1 p = p) as Fc
    by (apply (sub_absent _ _ (one c_backtick)); [simpl; tauto|intros c Hc; apply (Hall c Hc)]).
  assert (re_sub re_bullet [] p = p) as Fu.
  { unfold re_sub. rewrite bullet_rule_plain; [apply out_keeps| |  |exact Hnl].
    - destruct p; [reflexivity|exact Hhead].
    - unfold plain_text in Hp. repeat (apply andb_prop in Hp; destruct Hp as [Hp ?]).
      match goal with X : negb (bullet_start p) = true |- _ => apply negb_true_iff in X; exact X end. }
  unfold clean_text_for_tts in *. cbv zeta in *.
  rewrite Fb, Fi, Fc, Fu in Hfix.
  split.
  - intros b0 Hb0.
    assert (is_bullet b0 = true /\ is_space b0 = false /\ one c_star b0 = false
            /\ one c_backtick b0 = false) as [B1 [B2 [B3 B4]]]
      by (destruct Hb0 as [-> | ->]; repeat split; reflexivity).
    assert (forall c, In c (b0 :: c_space :: p) ->
            one c_star c = false /\ one c_backtick c = false) as Hx.
    { intros c [<-|[<-|Hc]]; [auto|split; reflexivity|exact (Hall c Hc)]. }
    rewrite (sub_absent re_bold group1 (one c_star) _ ltac:(simpl; tauto)
               (fun c Hc => proj1 (Hx c Hc))).
    rewrite (sub_absent re_italic group1 (one c_star) _ ltac:(simpl; tauto)
               (fun c Hc => proj1 (Hx c Hc))).
    rewrite (sub_absent re_code group1 (one c_backtick) _ ltac:(simpl; tauto)
               (fun c Hc => proj2 (Hx c Hc))).
    assert (re_sub re_bullet [] (b0 :: c_space :: p) = p) as ->.
    { change (b0 :: c_space :: p) with ([b0; c_space] ++ p). unfold re_bullet.
      apply (sub_delete_prefix _ [b0; c_space] p 1 [] c_space [b0]);
        [exact (match_bullet_item b0 p B1 B2 Hhead)|reflexivity|reflexivity|reflexivity
        |exact Hnl]. }
    exact Hfix.
  - intros ds Hne Hds.
    assert (forall c, In c ds ->
            is_space c = false /\ is_bullet c = false /\ one c_star c = false
            /\ one c_backtick c = false /\ (c =? c_newline) = false) as Hd.
    { rewrite forallb_forall in Hds. intros c Hc.
      destruct (digit_facts nd c (Hds c Hc)) as [_ H]. exact H. }
    assert (forall c, In c (ds ++ [c_dot; c_space] ++ p) ->
            one c_star c = false /\ one c_backtick c = false /\ (c =? c_newline) = false)
      as Hx.
    { intros c Hc. apply in_app_or in Hc. destruct Hc as [Hc|[<-|[<-|Hc]]].
      - destruct (Hd c Hc) as [_ [_ [A [B C]]]]. auto.
      - repeat split; reflexivity.
      - repeat split; reflexivity.
      - destruct (Hall c Hc). auto. }
    rewrite (sub_absent re_bold group1 (one c_star) _ ltac:(simpl; tauto)
               (fun c Hc => proj1 (Hx c Hc))).
    rewrite (sub_absent re_italic group1 (one c_star) _ ltac:(simpl; tauto)
               (fun c Hc => proj1 (Hx c Hc))).
    rewrite (sub_absent re_code group1 (one c_backtick) _ ltac:(simpl; tauto)
               (fun c Hc => proj1 (proj2 (Hx c Hc)))).
    assert (re_sub re_bullet [] (ds ++ [c_dot; c_space] ++ p) = ds ++ [c_dot; c_space] ++ p)
      as ->.
    { unfold re_sub. rewrite bullet_rule_plain; [apply out_keeps| | |].
      - destruct ds as [|d ds']; [contradiction|]. apply (Hd d (or_introl eq_refl)).
      - destruct ds as [|d ds']; [contradiction|]. cbn [app bullet_start].
        destruct (Hd d (or_introl eq_refl)) as [_ [-> _]]. reflexivity.
      - intros c Hc. apply (Hx c Hc). }
    assert (re_sub (re_ordinal nd) [] (ds ++ [c_dot; c_space] ++ p) = p) as ->.
    { replace (ds ++ [c_dot; c_space] ++ p) with ((ds ++ [c_dot; c_space]) ++ p)
        by (rewrite <- app_assoc; reflexivity).
      unfold re_ordinal.
      apply (sub_delete_prefix _ (ds ++ [c_dot; c_space]) p (length ds + 1) []
                               c_space (c_dot :: rev ds)).
      - rewrite <- app_assoc.
        pose proof (match_ordinal_item nd ds p Hne Hds Hhead) as Hm.
        unfold re_ordinal in Hm. rewrite Hm. do 2 f_equal. lia.
      - rewrite length_app. cbn [length]. lia.
      - rewrite rev_app_distr. reflexivity.
      - reflexivity.
      - exact Hnl. }
    rewrite (sub_absent (re_ordinal nd) [] (one c_dot) p) in Hfix; [exact Hfix|simpl; tauto|].
    intros c Hc.
    unfold plain_text in Hp. repeat (apply andb_prop in Hp; destruct Hp as [Hp ?]).
    rewrite forallb_forall in Hp. apply (plain_excludes c (Hp c Hc)).
Qed.

Lemma list_marker_removed_witness :
  plain_text (str "buy milk") = true
  /\ clean_text_for_tts nd_none (str "- buy milk") = str "buy milk"
  /\ clean_text_for_tts nd_none (str "12. buy milk") = str "buy milk".
Proof.
  split; [vm_compute; reflexivity|].
  destruct (list_marker_removed nd_none (str "buy milk") ltac:(vm_compute; reflexivity))
    as [H1 H2].
  split.
  - exact (H1 c_hyphen (or_introl eq_refl)).
  - exact (H2 (str "12") ltac:(discriminate) ltac:(vm_compute; reflexivity)).
Defined.

(** ** Texts the normalizer leaves alone *)

Lemma run_at_length (c : char) (s : text) : run_at c s = run_length (one c) None s.
Proof.
  induction s as [|d t IH]; [reflexivity|].
  cbn [run_at]. rewrite run_length_head. unfold one at 1. rewrite IH. reflexivity.
Qed.

Lemma run_length_ext (p q : charset) (s : text) :
  (forall c, p c = q c) -> run_length p None s = run_length q None s.
Proof.
  intro H. induction s as [|d t IH]; [reflexivity|].
  rewrite !run_length_head, H, IH. reflexivity.
Qed.

Lemma any_of_single_one (c x : char) : any_of [c] x = one c x.
Proof. unfold any_of, one. simpl. apply orb_false_r. Qed.

Lemma longest_run_suffix (c : char) (s : text) :
  forall k, (run_at c (skipn k s) <= longest_run c s)%nat.
Proof.
  induction s as [|d t IH]; intro k; [destruct k; simpl; lia|].
  destruct k as [|k]; cbn [skipn longest_run]; [lia|].
  pose proof (IH k). lia.
Qed.

Lemma scan_short_runs (p : charset) (lo : nat) (s : text) :
  (forall k, (run_length p None (skipn k s) < lo)%nat) ->
  forall b, scan_go (Rep p lo None true) 0 b s = map Keep s.
Proof.
  induction s as [|c t IH]; intros H b; [reflexivity|].
  cbn [scan_go map]. rewrite match_here_greedy.
  assert ((lo <=? run_length p None (c :: t))%nat = false) as ->
    by (apply Nat.leb_gt; exact (H 0%nat)).
  f_equal. apply IH. intro k. exact (H (S k)).
Qed.

Lemma sub_short_runs (p : charset) (lo : nat) (repl : list ritem) (s : text) :
  (forall k, (run_length p None (skipn k s) < lo)%nat) ->
  re_sub (Rep p lo None true) repl s = s.
Proof.
  intro H. unfold re_sub, scan. rewrite (scan_short_runs p lo s H). apply out_keeps.
Qed.

Lemma run_length_cap (p : charset) (s : text) :
  forall h, (run_length p None s <= h)%nat ->
  run_length p (Some h) s = run_length p None s.
Proof.
  induction s as [|c t IH]; intros h H; [reflexivity|].
  rewrite run_length_head in *. destruct h as [|h].
  - cbn [run_length]. destruct (p c); [lia|reflexivity].
  - cbn [run_length]. destruct (p c); [|reflexivity]. f_equal. apply IH. lia.
Qed.

Lemma three_dots_prefix (s : text) :
  forallb (one c_dot) (firstn 3 s) = true -> (3 <= length s)%nat ->
  repeat c_dot 3 ++ skipn 3 s = s.
Proof.
  destruct s as [|c1 [|c2 [|c3 t]]]; cbn [length]; try lia.
  cbn [firstn forallb skipn repeat app]. intros H _.
  repeat (apply andb_prop in H; destruct H as [? H]).
  repeat match goal with X : one c_dot _ = true |- _ => apply one_eq in X; subst end.
  reflexivity.
Qed.

(** [\.{3,8} -> ...] leaves a text alone whose dot runs have at most three
    dots. *)
Lemma dots3_identity (n : nat) :
  forall s b, (length s <= n)%nat ->
  (forall k, (run_length (one c_dot) None (skipn k s) <= 3)%nat) ->
  flat_map (seg_out (lit (repeat c_dot 3))) (scan_go re_dots3 0 b s) = s.
Proof.
  induction n as [|n IH]; intros s b Hlen H.
  - destruct s; [reflexivity|simpl in Hlen; lia].
  - destruct s as [|c t]; [reflexivity|].
    cbn [scan_go].
    pose proof (match_here_greedy (one c_dot) 3 (Some 8%nat) b (c :: t)) as Hm.
    fold re_dots3 in Hm. rewrite Hm. clear Hm.
    pose proof (H 0%nat) as H0. cbn [skipn] in H0.
    rewrite (run_length_cap (one c_dot) (c :: t) 8 ltac:(lia)).
    destruct (3 <=? run_length (one c_dot) None (c :: t))%nat eqn:E.
    + apply Nat.leb_le in E.
      assert (run_length (one c_dot) None (c :: t) = 3%nat) as -> by lia.
      destruct (run_length_prefix (one c_dot) (c :: t) None 3) as [Hall Hl]; [lia|].
      rewrite scan_go_skip. cbn [flat_map seg_out]. rewrite expand_lit.
      rewrite (IH (skipn 2 t)).
      * change (skipn 2 t) with (skipn 3 (c :: t)). exact (three_dots_prefix _ Hall Hl).
      * rewrite length_skipn. simpl in Hlen. lia.
      * intro k. rewrite skipn_skipn. exact (H (S (k + 2))).
    + cbn [flat_map seg_out app]. f_equal.
      apply IH; [simpl in Hlen; lia|]. intro k. exact (H (S k)).
Qed.

Lemma match_glued_none (b : text) (c : char) (t : text) :
  negb (is_sentence_end c && starts_with_upper t) = true ->
  match_here re_glued b (c :: t) = None.
Proof.
  intro H. apply negb_true_iff in H. unfold match_here, re_glued. cbn [run rest].
  destruct (is_sentence_end c); [|reflexivity].
  cbn [map flat_map close_group step_char rest before caps].
  destruct t as [|d t']; [reflexivity|].
  cbn [andb starts_with_upper] in H. rewrite H. reflexivity.
Qed.

Lemma scan_glued_free (s : text) :
  glued_free s = true -> forall b, scan_go re_glued 0 b s = map Keep s.
Proof.
  induction s as [|c t IH]; intros H b; [reflexivity|].
  cbn [glued_free] in H. apply andb_prop in H. destruct H as [H1 H2].
  cbn [scan_go map]. rewrite (match_glued_none b c t H1). f_equal. exact (IH H2 (c :: b)).
Qed.

Lemma scan_no_space_before_dot (s : text) :
  no_space_before_dot s = true -> forall b, scan_go re_space_dot 0 b s = map Keep s.
Proof.
  induction s as [|c t IH]; intros H b; [reflexivity|].
  cbn [scan_go map]. rewrite match_here_space_dot.
  assert ((1 <=? run_length is_space None (c :: t))%nat
          && starts_with_dot (skipn (run_length is_space None (c :: t)) (c :: t)) = false)
    as ->.
  { destruct (1 <=? run_length is_space None (c :: t))%nat eqn:E; [|reflexivity].
    apply Nat.leb_le in E. exact (no_dot_after_spaces (c :: t) H E). }
  f_equal. exact (IH (no_space_before_dot_tail _ _ H) (c :: b)).
Qed.

Lemma decimal_not_dot (nd : charset) (c : char) :
  is_decimal nd c = true -> one c_dot c = false.
Proof.
  intro H. unfold one. destruct (c =? c_dot) eqn:E; [|reflexivity].
  apply N.eqb_eq in E. subst c. discriminate.
Qed.

Lemma flat_map_all_nil (A B : Type) (f : A -> list B) (l : list A) :
  (forall x, In x l -> f x = []) -> flat_map f l = [].
Proof.
  induction l as [|x l IH]; intro H; [reflexivity|].
  cbn [flat_map]. rewrite (H x (or_introl eq_refl)). apply IH.
  intros y Hy. apply H. right. exact Hy.
Qed.

Lemma match_ordinal_none (nd : charset) (t : text) :
  starts_with_space t = false -> ordinal_start nd t = false ->
  match_here (re_ordinal nd) [] t = None.
Proof.
  intros Hs Ho. unfold match_here, re_ordinal.
  rewrite run_bol_start, run_rep_zero_then; [|destruct t; [exact I|exact Hs]].
  rewrite run_rep_then, flat_map_all_nil; [reflexivity|].
  intros st' Hin. apply in_map_iff in Hin. destruct Hin as [k [<- Hk]].
  apply rep_counts_in in Hk. cbn [rest] in Hk.
  rewrite run_chr_then, rest_advance. cbn [rest].
  destruct (Nat.eq_dec k (run_length (is_decimal nd) None t)) as [->|Hne].
  - unfold ordinal_start in Ho.
    assert ((1 <=? run_length (is_decimal nd) None t)%nat = true) as E1
      by (apply Nat.leb_le; lia).
    rewrite E1 in Ho. cbn [andb] in Ho.
    destruct (skipn (run_length (is_decimal nd) None t) t) as [|c after] eqn:Ek;
      [reflexivity|].
    unfold one at 1. destruct (c =? c_dot); [|reflexivity].
    cbn [andb] in Ho. cbn [run].
    assert (rest (step_char (advance (run_length (is_decimal nd) None t) (MState [] t [])))
            = after) as ->
      by (rewrite rest_step_char, rest_advance; cbn [rest]; rewrite Ek; reflexivity).
    rewrite (run_length_zero is_space None after); [reflexivity|].
    destruct after; [exact I|exact Ho].
  - pose proof (run_length_inside (is_decimal nd) t k ltac:(lia)) as Hin.
    destruct (skipn k t) as [|c after]; [contradiction|].
    rewrite (decimal_not_dot nd c Hin). reflexivity.
Qed.

Lemma ordinal_rule_settled (nd : charset) (t : text) :
  starts_with_space t = false -> ordinal_start nd t = false ->
  (forall c, In c t -> (c =? c_newline) = false) ->
  re_sub (re_ordinal nd) [] t = t.
Proof.
  intros Hs Ho Hn. unfold re_sub, scan. destruct t as [|c t']; [reflexivity|].
  cbn [scan_go]. rewrite (match_ordinal_none nd _ Hs Ho).
  cbn [flat_map seg_out app]. f_equal. unfold re_ordinal.
  rewrite (scan_bol_inside _ t');
    [apply out_keeps|intros d Hd; apply Hn; right; exact Hd|apply Hn; left; reflexivity].
Qed.

Lemma visible_not_newline (c : char) :
  space_or_visible c = true -> (c =? c_newline) = false.
Proof.
  unfold space_or_visible. intro H. destruct (c =? c_newline) eqn:E; [|reflexivity].
  apply N.eqb_eq in E. subst c. discriminate.
Qed.

Lemma symbol_free_no_star (c : char) : is_blocklisted c = false -> one c_star c = false.
Proof.
  intro H. unfold one. destruct (c =? c_star) eqn:E; [|reflexivity].
  apply N.eqb_eq in E. subst c. discriminate.
Qed.

(** A text with the guarantees of an output that is settled is a fixed
    point of the normalizer. *)
Lemma settled_fixed (nd : charset) (x : text) :
  (forall c, In c x -> is_blocklisted c = false /\ space_or_visible c = true) ->
  single_spaced x = true ->
  no_space_before_dot x = true ->
  strip x = x ->
  settled nd x = true ->
  clean_text_for_tts nd x = x.
Proof.
  intros Hch Hsingle Hnsd Hstrip Hset.
  unfold settled in Hset.
  repeat (apply andb_prop in Hset; destruct Hset as [Hset ?]).
  repeat match goal with
         | X : negb _ = true |- _ => apply negb_true_iff in X
         | X : (_ <=? _)%nat = true |- _ => apply Nat.leb_le in X
         end.
  match goal with X : existsb _ _ = false |- _ => rename X into Htick end.
  match goal with X : bullet_start _ = false |- _ => rename X into Hbul end.
  match goal with X : ordinal_start _ _ = false |- _ => rename X into Hord end.
  match goal with X : glued_free _ = true |- _ => rename X into Hglue end.
  match goal with X : (longest_run c_dot _ <= _)%nat |- _ => rename X into Hdot end.
  match goal with X : (longest_run c_bang _ <= _)%nat |- _ => rename X into Hbang end.
  match goal with X : (longest_run c_question _ <= _)%nat |- _ => rename X into Hq end.
  assert (forall c, In c x -> one c_star c = false) as Hstar
    by (intros c Hc; apply symbol_free_no_star, (Hch c Hc)).
  assert (forall c, In c x -> one c_backtick c = false) as Hbt.
  { intros c Hc. destruct (one c_backtick c) eqn:E; [|reflexivity].
    assert (existsb (one c_backtick) x = true) as Hex
      by (apply existsb_exists; exists c; auto).
    rewrite Htick in Hex. discriminate. }
  assert (forall c, In c x -> (c =? c_newline) = false) as Hnl
    by (intros c Hc; apply visible_not_newline, (Hch c Hc)).
  pose proof (strip_fixed_no_lead x Hstrip) as Hlead.
  assert (forall c m, (longest_run c x <= m)%nat ->
          forall k, (run_length (one c) None (skipn k x) <= m)%nat) as Hruns.
  { intros c m Hm k. rewrite <- run_at_length. pose proof (longest_run_suffix c x k). lia. }
  rewrite clean_as_rules, rules_identity; [exact Hstrip|].
  unfold rules. repeat (apply Forall_cons; [cbn [fst snd]|]); try apply Forall_nil.
  - apply (sub_absent _ _ (one c_star)); [simpl; tauto|exact Hstar].
  - apply (sub_absent _ _ (one c_star)); [simpl; tauto|exact Hstar].
  - apply (sub_absent _ _ (one c_backtick)); [simpl; tauto|exact Hbt].
  - unfold re_sub. rewrite bullet_rule_plain; [apply out_keeps|exact Hlead|exact Hbul|exact Hnl].
  - exact (ordinal_rule_settled nd x Hlead Hord Hnl).
  - unfold re_sub, scan. apply spaces_rule_plain; [exact Hsingle|].
    intros c Hc. apply (Hch c Hc).
  - unfold re_sub, scan. rewrite scan_glued_free; [apply out_keeps|exact Hglue].
  - apply sub_short_runs. intro k. pose proof (Hruns c_dot 3%nat Hdot k). lia.
  - unfold re_sub, scan. apply (dots3_identity _ _ [] (le_n _)). exact (Hruns c_dot 3%nat Hdot).
  - apply sub_short_runs. intro k.
    rewrite (run_length_ext _ (one c_bang) _ (any_of_single_one c_bang)).
    pose proof (Hruns c_bang 1%nat Hbang k). lia.
  - apply sub_short_runs. intro k.
    rewrite (run_length_ext _ (one c_question) _ (any_of_single_one c_question)).
    pose proof (Hruns c_question 1%nat Hq k). lia.
  - apply (sub_absent _ _ is_blocklisted); [simpl; tauto|].
    intros c Hc. apply (Hch c Hc).
  - unfold re_sub, scan. rewrite scan_no_space_before_dot; [apply out_keeps|exact Hnsd].
  - unfold re_sub, scan. rewrite spaces2_rule_plain; [apply out_keeps|exact Hsingle].
Qed.

Lemma clean_output_shape (nd : charset) (y : text) :
  single_spaced (clean_text_for_tts nd y) = true
  /\ no_space_before_dot (clean_text_for_tts nd y) = true.
Proof.
  unfold clean_text_for_tts, strip. split.
  - apply rstrip_single_spaced, lstrip_single_spaced.
    exact (proj1 (spaces2_output_single _ _ [] (le_n _))).
  - apply rstrip_no_space_before_dot, lstrip_no_space_before_dot.
    apply (spaces2_keeps_no_space_before_dot _ _ [] (le_n _)).
    exact (proj1 (space_dot_output _ _ [] (le_n _))).
Qed.

Example settled_examples :
  settled nd_none (str "Hello world. Bye... now!") = true
  /\ settled nd_none (str "- - a") = false
  /\ settled nd_none (str "1. a") = false
  /\ settled nd_none (str "a.B") = false
  /\ settled nd_none (str "....") = false
  /\ settled nd_none (str "!!") = false.
Proof. repeat split; vm_compute; reflexivity. Qed.

(** * Idempotence and the empty text *)

(** C5, as stated, fails: ["- - a"] is an output of the normalizer, for
    ["- - - a"]; its own output is ["- a"], and the output of that is
    ["a"]. *)
Lemma clean_not_idempotent_on_outputs :
  clean_text_for_tts nd_none (str "- - - a") = str "- - a"
  /\ clean_text_for_tts nd_none (str "- - a") = str "- a"
  /\ clean_text_for_tts nd_none (clean_text_for_tts nd_none (str "- - a"))
     <> clean_text_for_tts nd_none (str "- - a").
Proof.
  split; [vm_compute; reflexivity|]. split; [vm_compute; reflexivity|].
  vm_compute. discriminate.
Qed.

(** C5, amended: the normalizer is idempotent on every output that is
    settled: normalizing an output [x] again returns [x] when [x] has no
    backtick, does not start with a bullet marker and whitespace or with
    digits, a dot and whitespace, has none of [.!?] directly before a capital
    [A-Z], no run of more than three dots and no run of two or more [!] or
    [?]. *)
Theorem clean_idempotent_on_settled_outputs (nd : charset) (y : text) :
  settled nd (clean_text_for_tts nd y) = true ->
  clean_text_for_tts nd (clean_text_for_tts nd y) = clean_text_for_tts nd y.
Proof.
  intro H. destruct (clean_output_shape nd y) as [H1 H2].
  apply settled_fixed.
  - intros c Hc. split; [exact (clean_no_symbol nd y c Hc)
                        |exact (clean_whitespace_is_space nd y c Hc)].
  - exact H1.
  - exact H2.
  - apply clean_trimmed.
  - exact H.
Qed.

Lemma clean_idempotent_on_settled_outputs_witness :
  clean_text_for_tts nd_none (str "- Hello   **world**.Bye!!  ok ...") = str "Hello world. Bye! ok..."
  /\ settled nd_none (clean_text_for_tts nd_none (str "- Hello   **world**.Bye!!  ok ...")) = true
  /\ clean_text_for_tts nd_none
       (clean_text_for_tts nd_none (str "- Hello   **world**.Bye!!  ok ..."))
     = clean_text_for_tts nd_none (str "- Hello   **world**.Bye!!  ok ...").
Proof.
  split; [vm_compute; reflexivity|]. split; [vm_compute; reflexivity|].
  apply (clean_idempotent_on_settled_outputs nd_none (str "- Hello   **world**.Bye!!  ok ...")).
  vm_compute. reflexivity.
Defined.


